(** * va_opt.h: a VA_OPT polyfill, verified over a model of the C preprocessor

    The program is a set of C preprocessor macros.  Each [#define] of
    [va_opt.h] is transcribed below as a definition that carries the macro's
    parameter list and its replacement list, lexed from the text the header
    has.  The macros are run by an executable model of macro replacement
    (C99 6.10.3): argument collection, argument pre-expansion, [##],
    rescanning, and the hide sets that keep a macro from expanding inside
    its own replacement.  What the four implementations of the header need
    beyond C99 ([__VA_OPT__], comma elision) is a [dialect] of the model.

    The development has three parts: the model and the header; an
    abstraction result, by which one run of the model on a token list with
    symbolic tokens stands for its runs on all the token lists of that
    shape; and the results on the header's macros. *)

From Stdlib Require Import String Ascii List Bool Arith ZArith Lia.
Import ListNotations.
Local Open Scope string_scope.
Local Open Scope list_scope.

(** ** Preprocessing tokens *)

(** Symbolic tokens stand for a run of caller tokens that the header never
    inspects; they only occur in the inputs of the abstraction lemmas.
    [SRun]: a non-empty run without a comma outside parentheses that does
    not start with a parenthesis; [STail]: a possibly empty run without a
    comma outside parentheses; [SRest]: any run; [SGroup]: a whole
    parenthesised group. *)
Inductive symkind : Type := SRun | STail | SRest | SGroup.

Inductive tok : Type :=
| TId (s : string)      (* identifier *)
| TNum (s : string)     (* pp-number *)
| TStr (s : string)     (* string literal *)
| TPunct (s : string)   (* any other punctuator *)
| TLParen
| TRParen
| TComma
| TPaste                (* ## *)
| THash                 (* # *)
| TSym (k : symkind) (i : nat).



(** ** Lexer for replacement lists and test inputs

    Whitespace and [/* ... */] comments separate tokens and leave none. *)

Definition is_alpha (c : ascii) : bool :=
  let n := nat_of_ascii c in
  ((65 <=? n) && (n <=? 90) || (97 <=? n) && (n <=? 122) || (n =? 95))%nat.

Definition is_digit (c : ascii) : bool :=
  let n := nat_of_ascii c in ((48 <=? n) && (n <=? 57))%nat.

Definition is_space (c : ascii) : bool :=
  let n := nat_of_ascii c in
  ((n =? 32) || (n =? 9) || (n =? 10) || (n =? 13))%nat.

Inductive lstate : Type := LCode | LSlash | LHash | LComment | LStar.

Definition flush (w : string) : list tok :=
  match w with
  | EmptyString => []
  | String c _ => if is_digit c then [TNum w] else [TId w]
  end.

Definition snoc (w : string) (c : ascii) : string :=
  String.append w (String c EmptyString).

Definition step_code (w : string) (c : ascii) : list tok * lstate * string :=
  if is_alpha c || is_digit c then ([], LCode, snoc w c)
  else if is_space c then (flush w, LCode, "")
  else if Ascii.eqb c "(" then (flush w ++ [TLParen], LCode, "")
  else if Ascii.eqb c ")" then (flush w ++ [TRParen], LCode, "")
  else if Ascii.eqb c "," then (flush w ++ [TComma], LCode, "")
  else if Ascii.eqb c "/" then (flush w, LSlash, "")
  else if Ascii.eqb c "#" then (flush w, LHash, "")
  else (flush w ++ [TPunct (String c EmptyString)], LCode, "").

Definition step (st : lstate) (w : string) (c : ascii)
  : list tok * lstate * string :=
  match st with
  | LCode => step_code w c
  | LSlash =>
      if Ascii.eqb c "*" then ([], LComment, "")
      else let '(o, st', w') := step_code "" c in (TPunct "/" :: o, st', w')
  | LHash =>
      if Ascii.eqb c "#" then ([TPaste], LCode, "")
      else let '(o, st', w') := step_code "" c in (THash :: o, st', w')
  | LComment => if Ascii.eqb c "*" then ([], LStar, "") else ([], LComment, "")
  | LStar =>
      if Ascii.eqb c "/" then ([], LCode, "")
      else if Ascii.eqb c "*" then ([], LStar, "")
      else ([], LComment, "")
  end.

Fixpoint lex_from (st : lstate) (w : string) (s : string) : list tok :=
  match s with
  | EmptyString =>
      flush w ++
      match st with
      | LSlash => [TPunct "/"]
      | LHash => [THash]
      | _ => []
      end
  | String c s' =>
      let '(o, st', w') := step st w c in o ++ lex_from st' w' s'
  end.

Definition lex (s : string) : list tok := lex_from LCode "" s.

(** ** Macro definitions *)

Record macro : Type := Macro {
  m_fun : bool;               (* function-like? *)
  m_params : list string;     (* named parameters *)
  m_variadic : bool;          (* parameter list ends in ... *)
  m_body : list tok           (* replacement list *)
}.

Fixpoint parse_params (ts : list tok) : option (list string * bool) :=
  match ts with
  | [TRParen] => Some ([], false)
  | [TPunct "."; TPunct "."; TPunct "."; TRParen] => Some ([], true)
  | [TId p; TRParen] => Some ([p], false)
  | TId p :: TComma :: ts' =>
      match parse_params ts' with
      | Some (ps, v) => Some (p :: ps, v)
      | None => None
      end
  | _ => None
  end.

(** [define "NAME(a, b, ...)" "body"] is [#define NAME(a, b, ...) body];
    [define "NAME" "body"] is the object-like [#define NAME body]. *)
Definition define (head body : string) : string * macro :=
  match lex head with
  | [TId n] => (n, Macro false [] false (lex body))
  | TId n :: TLParen :: ps =>
      match parse_params ps with
      | Some (ps', v) => (n, Macro true ps' v (lex body))
      | None => ("", Macro false [] false [])
      end
  | _ => ("", Macro false [] false [])
  end.

Definition table : Type := list (string * macro).

Fixpoint lookup (n : string) (e : table) : option macro :=
  match e with
  | [] => None
  | (k, m) :: e' => if String.eqb n k then Some m else lookup n e'
  end.

(** ** Macro replacement

    Tokens under replacement carry a hide set: the names of the macros whose
    replacement produced them, which the token may no longer invoke. *)

Record ptok : Type := PT { tk : tok; hs : list string }.

Definition plain (t : tok) : ptok := PT t [].

Definition mem (n : string) (H : list string) : bool :=
  existsb (String.eqb n) H.

Definition hs_inter (a b : list string) : list string :=
  filter (fun x => mem x b) a.

Definition hsadd (H : list string) (ts : list ptok) : list ptok :=
  map (fun p => PT (tk p) (H ++ hs p)) ts.

Inductive error : Type :=
| OutOfFuel
| Arity (name : string)          (* wrong number of arguments *)
| Unterminated (name : string)   (* no closing parenthesis *)
| BadPaste                       (* ## does not give a token *)
| Symbolic                       (* outcome depends on a symbolic token *)
| Unsupported.

Inductive res (A : Type) : Type :=
| Ok (a : A)
| Err (e : error).
Arguments Ok {A} a.
Arguments Err {A} e.

Definition rbind {A B : Type} (r : res A) (f : A -> res B) : res B :=
  match r with
  | Ok a => f a
  | Err e => Err e
  end.

Notation "x <- r ;; k" := (rbind r (fun x => k))
  (at level 61, r at next level, right associativity).

Definition rcons (p : ptok) (r : res (list ptok)) : res (list ptok) :=
  x <- r ;; Ok (p :: x).

(** The preprocessor behaviours the header selects between. *)
Record dialect : Type := Dialect {
  d_va_opt : bool;      (* __VA_OPT__ is available *)
  d_gnu_comma : bool;   (* , ## __VA_ARGS__ drops the comma when empty *)
  d_msvc_comma : bool;  (* , __VA_ARGS__ drops the comma when empty *)
  d_rescan : bool       (* a finished replacement is scanned once more *)
}.

Definition is_sym (p : ptok) : bool :=
  match tk p with
  | TSym _ _ => true
  | _ => false
  end.

Definition has_sym (ts : list ptok) : bool := existsb is_sym ts.

(** A token that is certainly there (a symbolic tail or rest may be empty). *)
Definition definite (p : ptok) : bool :=
  match tk p with
  | TSym STail _ | TSym SRest _ => false
  | _ => true
  end.

Definition is_empty (ts : list ptok) : res bool :=
  match ts with
  | [] => Ok true
  | _ => if existsb definite ts then Ok false else Err Symbolic
  end.

Definition depth_after (t : tok) (n : nat) : nat :=
  match t with
  | TLParen => S n
  | TRParen => pred n
  | _ => n
  end.

(** The tokens up to the parenthesis that closes the group opened just
    before [ts], that parenthesis's hide set, and what follows it. *)
Fixpoint take_group (n : nat) (ts : list ptok)
  : option (list ptok * list string * list ptok) :=
  match ts with
  | [] => None
  | p :: ts' =>
      match tk p, n with
      | TRParen, 0 => Some ([], hs p, ts')
      | t, _ =>
          match take_group (depth_after t n) ts' with
          | Some (g, h, r) => Some (p :: g, h, r)
          | None => None
          end
      end
  end.

(** The tokens before the first comma outside parentheses, and what follows
    that comma when there is one. *)
Fixpoint split_comma (n : nat) (ts : list ptok)
  : res (list ptok * option (list ptok)) :=
  match ts with
  | [] => Ok ([], None)
  | p :: ts' =>
      match tk p, n with
      | TComma, 0 => Ok ([], Some ts')
      | TSym SRest _, 0 => Err Symbolic
      | t, _ =>
          x <- split_comma (depth_after t n) ts' ;;
          Ok (p :: fst x, snd x)
      end
  end.

Definition va_args : string := "__VA_ARGS__".
Definition va_opt : string := "__VA_OPT__".

Definition bindings : Type := list (string * list ptok).

Fixpoint bind_named (name : string) (ps : list string) (variadic : bool)
  (ts : list ptok) : res bindings :=
  match ps with
  | [] => if variadic then Ok [(va_args, ts)] else Err (Arity name)
  | p :: ps' =>
      x <- split_comma 0 ts ;;
      match snd x, ps' with
      | None, [] =>
          Ok ((p, fst x) :: if variadic then [(va_args, [])] else [])
      | None, _ :: _ => Err (Arity name)
      | Some r', [] =>
          if variadic then Ok [(p, fst x); (va_args, r')]
          else Err (Arity name)
      | Some r', _ :: _ =>
          bs <- bind_named name ps' variadic r' ;; Ok ((p, fst x) :: bs)
      end
  end.

Definition bind_args (name : string) (m : macro) (content : list ptok)
  : res bindings :=
  match m_params m, m_variadic m, content with
  | [], false, [] => Ok []
  | [], false, _ :: _ => Err (Arity name)
  | ps, v, _ => bind_named name ps v content
  end.

Fixpoint assoc (n : string) (bs : bindings) : option (list ptok) :=
  match bs with
  | [] => None
  | (k, a) :: bs' => if String.eqb n k then Some a else assoc n bs'
  end.

Definition actual (bs : bindings) (t : tok) : option (list ptok) :=
  match t with
  | TId x => assoc x bs
  | _ => None
  end.

Definition paste_tok (a b : tok) : option tok :=
  match a, b with
  | TId x, TId y | TId x, TNum y => Some (TId (String.append x y))
  | TNum x, TNum y | TNum x, TId y => Some (TNum (String.append x y))
  | _, _ => None
  end.

(** [##]: the last token of [os] is joined with the first of [a]. *)
Fixpoint glue (os a : list ptok) : res (list ptok) :=
  match os with
  | [] => Ok a
  | l :: os' =>
      match os' with
      | [] =>
          match a with
          | [] => Ok [l]
          | r :: a' =>
              match paste_tok (tk l) (tk r) with
              | Some t => Ok (PT t (hs_inter (hs l) (hs r)) :: a')
              | None => Err BadPaste
              end
          end
      | _ :: _ => rcons l (glue os' a)
      end
  end.

Definition is_id (n : string) (t : tok) : bool :=
  match t with
  | TId x => String.eqb x n
  | _ => false
  end.

(** A replacement list that mentions no parameter and no operator. *)
Definition plain_body (body : list tok) : bool :=
  forallb (fun t =>
    match t with
    | TPaste | THash | TSym _ _ => false
    | _ => negb (is_id va_args t) && negb (is_id va_opt t)
    end) body.

Definition ignores_args (m : macro) : bool :=
  m_variadic m && match m_params m with [] => true | _ :: _ => false end
  && plain_body (m_body m).

Section Replace.
Variable d : dialect.
Variable env : table.

Section Subst.
(** [pre] macro-expands an argument on its own. *)
Variable pre : list ptok -> res (list ptok).
Variable bs : bindings.

Definition va_actual : list ptok :=
  match assoc va_args bs with
  | Some a => a
  | None => []
  end.

(** Inside the group of a [__VA_OPT__]: whether its tokens are kept, and
    the parenthesis depth. *)
Definition vstate : Type := option (bool * nat).

Definition advance (t : tok) (vo : vstate) : vstate :=
  match vo with
  | Some (k, n) => Some (k, depth_after t n)
  | None => None
  end.

Definition sstate : Type := vstate * list tok * list ptok.

(** [## t2], with [os] the output so far. *)
Definition step_paste (vo : vstate) (t2 : tok) (is2 : list tok)
  (os : list ptok) : res sstate :=
  match actual bs t2 with
  | Some a =>
      if has_sym a then Err Symbolic
      else match a with
           | [] => Ok (advance t2 vo, is2, os)
           | _ :: _ => os' <- glue os a ;; Ok (advance t2 vo, is2, os')
           end
  | None =>
      match t2 with
      | TSym _ _ => Err Symbolic
      | _ => os' <- glue os [plain t2] ;; Ok (advance t2 vo, is2, os')
      end
  end.

(** A comma of the replacement list, followed by [is1]. *)
Definition step_comma (vo : vstate) (is1 : list tok) (os : list ptok)
  : res sstate :=
  let keep := Ok (vo, is1, os ++ [plain TComma]) in
  match is1 with
  | TPaste :: t2 :: is3 =>
      if d_gnu_comma d && is_id va_args t2 then
        e <- is_empty va_actual ;;
        if e : bool then Ok (vo, is3, os)
        else Ok (vo, is3, os ++ plain TComma :: va_actual)
      else keep
  | t2 :: is2 =>
      if d_msvc_comma d && is_id va_args t2 then
        e <- is_empty va_actual ;;
        if e : bool then Ok (vo, is2, os) else keep
      else keep
  | [] => keep
  end.

(** A parameter whose argument is [a], followed by [is1]. *)
Definition step_param (vo : vstate) (a : list ptok) (is1 : list tok)
  (os : list ptok) : res sstate :=
  match is1 with
  | TPaste :: is2 =>
      if has_sym a then Err Symbolic
      else match a with
           | [] =>
               match is2 with
               | t2 :: is3 =>
                   match actual bs t2 with
                   | Some a2 =>
                       if has_sym a2 then Err Symbolic
                       else Ok (advance t2 vo, is3, os ++ a2)
                   | None => Ok (vo, is2, os)
                   end
               | [] => Err Unsupported
               end
           | _ :: _ => Ok (vo, is1, os ++ a)
           end
  | _ => a' <- pre a ;; Ok (vo, is1, os ++ a')
  end.

(** A token [t] that is no operator, followed by [is1]. *)
Definition step_other (vo : vstate) (t : tok) (is1 : list tok)
  (os : list ptok) : res sstate :=
  if d_va_opt d && is_id va_opt t then
    match is1 with
    | TLParen :: is2 =>
        a <- pre va_actual ;;
        e <- is_empty a ;;
        Ok (Some (negb e, 0), is2, os)
    | _ => Err Unsupported
    end
  else
    match actual bs t with
    | Some a => step_param vo a is1 os
    | None => Ok (vo, is1, os ++ [plain t])
    end.

Definition step_token (vo : vstate) (t : tok) (is1 : list tok)
  (os : list ptok) : res sstate :=
  match t with
  | THash => Err Unsupported
  | TSym _ _ => Err Symbolic
  | TPaste =>
      match is1 with
      | t2 :: is2 => step_paste vo t2 is2 os
      | [] => Err Unsupported
      end
  | TComma => step_comma vo is1 os
  | _ => step_other vo t is1 os
  end.

(** One token [t] of the replacement list, followed by [is1]. *)
Definition subst_step (vo : vstate) (t : tok) (is1 : list tok)
  (os : list ptok) : res sstate :=
  match vo, t with
  | Some (_, 0), TRParen => Ok (None, is1, os)
  | Some (false, n), _ => Ok (Some (false, depth_after t n), is1, os)
  | _, _ => step_token (advance t vo) t is1 os
  end.

Fixpoint subst_loop (n : nat) (vo : vstate) (body : list tok)
  (os : list ptok) : res (list ptok) :=
  match body with
  | [] => Ok os
  | t :: is1 =>
      match n with
      | 0 => Err OutOfFuel
      | S n' =>
          st <- subst_step vo t is1 os ;;
          subst_loop n' (fst (fst st)) (snd (fst st)) (snd st)
      end
  end.

(** Substitution of the arguments into the replacement list [body]:
    every step consumes at least one of its tokens. *)
Definition subst (body : list tok) : res (list ptok) :=
  subst_loop (length body) None body [].
End Subst.

Section Scan.
Variable pre : list ptok -> res (list ptok).
(** [rec] continues the scan over a replacement and what follows it. *)
Variable rec : list ptok -> res (list ptok).

(** The macro [n] (token [p]) seen with [rest] after it: [None] when this
    is no invocation. *)
Definition invoke (n : string) (p : ptok) (m : macro)
  (rest : list ptok) : option (res (list ptok)) :=
  match rest with
  | q :: rest1 =>
      match tk q with
      | TLParen =>
          Some match take_group 0 rest1 with
               | None => Err (Unterminated n)
               | Some (content, hq, rest2) =>
                   bs <- bind_args n m content ;;
                   r <- subst pre bs (m_body m) ;;
                   rec (hsadd (n :: hs_inter (hs p) hq) r ++ rest2)
               end
      | TSym SGroup _ =>
          Some (if ignores_args m
                then rec (hsadd (n :: hs_inter (hs p) (hs q))
                            (map plain (m_body m)) ++ rest1)
                else Err Symbolic)
      | TSym STail _ | TSym SRest _ => Some (Err Symbolic)
      | _ => None
      end
  | [] => None
  end.

Fixpoint scan (ts : list ptok) : res (list ptok) :=
  match ts with
  | [] => Ok []
  | p :: rest =>
      match tk p with
      | TId n =>
          if mem n (hs p) then rcons p (scan rest)
          else
            match lookup n env with
            | None => rcons p (scan rest)
            | Some m =>
                if m_fun m then
                  match invoke n p m rest with
                  | Some r => r
                  | None => rcons p (scan rest)
                  end
                else
                  r <- subst pre [] (m_body m) ;;
                  rec (hsadd (n :: hs p) r ++ rest)
            end
      | _ => rcons p (scan rest)
      end
  end.
End Scan.

(** An argument is macro-expanded on its own before it is substituted. *)
Definition twice (ex : list ptok -> res (list ptok)) (a : list ptok)
  : res (list ptok) :=
  r <- ex a ;; if d_rescan d then ex r else Ok r.

Fixpoint expand (fuel : nat) (ts : list ptok) : res (list ptok) :=
  match fuel with
  | 0 => Err OutOfFuel
  | S f => scan (twice (expand f)) (expand f) ts
  end.

(** Macro replacement of a piece of program text. *)
Definition preprocess (fuel : nat) (ts : list tok) : res (list tok) :=
  r <- twice (expand fuel) (map plain ts) ;; Ok (map tk r).
End Replace.

(** ** The header [va_opt.h]

    One definition per [#define], under the source's name.  Where the header
    defines a name differently under [#if], the variants live in modules. *)

Inductive impl : Type :=
| NTRNLVA_IMPL_NATIVE
| NTRNLVA_IMPL_GNU
| NTRNLVA_IMPL_MSVC
| NTRNLVA_IMPL_C99.

Definition NTRNLVA_EXPAND := define "NTRNLVA_EXPAND(...)" "__VA_ARGS__".
Definition NTRNLVA_SEL1_I := define "NTRNLVA_SEL1_I(a, ...)" "a".
Definition NTRNLVA_SEL2_I := define "NTRNLVA_SEL2_I(a, b, ...)" "b".
Definition NTRNLVA_SEL3_I := define "NTRNLVA_SEL3_I(a, b, c, ...)" "c".

(** [#if NTRNLVA_MSVC_TRADITIONAL] *)
Module Traditional.
Definition NTRNLVA_SEL1 :=
  define "NTRNLVA_SEL1(...)" "NTRNLVA_EXPAND(NTRNLVA_SEL1_I(__VA_ARGS__))".
Definition NTRNLVA_SEL2 :=
  define "NTRNLVA_SEL2(...)" "NTRNLVA_EXPAND(NTRNLVA_SEL2_I(__VA_ARGS__))".
Definition NTRNLVA_SEL3 :=
  define "NTRNLVA_SEL3(...)" "NTRNLVA_EXPAND(NTRNLVA_SEL3_I(__VA_ARGS__))".
Definition NTRNLVA_CHECK :=
  define "NTRNLVA_CHECK(...)"
         "NTRNLVA_EXPAND(NTRNLVA_CHECK_N(__VA_ARGS__, 0, ))".
Definition NTRNLVA_HAS_COMMA :=
  define "NTRNLVA_HAS_COMMA(...)"
         "NTRNLVA_CHECK_SENTINEL(NTRNLVA_EXPAND(
            NTRNLVA_SEL3_I(__VA_ARGS__, NTRNLVA_SENTINEL_, 0)
          ))".
End Traditional.

(** [#else] *)
Module Conforming.
Definition NTRNLVA_SEL1 :=
  define "NTRNLVA_SEL1(...)" "NTRNLVA_SEL1_I(__VA_ARGS__)".
Definition NTRNLVA_SEL2 :=
  define "NTRNLVA_SEL2(...)" "NTRNLVA_SEL2_I(__VA_ARGS__)".
Definition NTRNLVA_SEL3 :=
  define "NTRNLVA_SEL3(...)" "NTRNLVA_SEL3_I(__VA_ARGS__)".
Definition NTRNLVA_CHECK :=
  define "NTRNLVA_CHECK(...)" "NTRNLVA_CHECK_N(__VA_ARGS__, 0, )".
Definition NTRNLVA_HAS_COMMA :=
  define "NTRNLVA_HAS_COMMA(...)"
         "NTRNLVA_CHECK_SENTINEL(NTRNLVA_SEL3_I(__VA_ARGS__, NTRNLVA_SENTINEL_, 0))".
End Conforming.

Definition NTRNLVA_EMPTY := define "NTRNLVA_EMPTY(...)" "".
Definition NTRNLVA_CAT :=
  define "NTRNLVA_CAT(a, ...)" "NTRNLVA_PRIMITIVE_CAT(a, __VA_ARGS__)".
Definition NTRNLVA_PRIMITIVE_CAT :=
  define "NTRNLVA_PRIMITIVE_CAT(a, ...)" "a##__VA_ARGS__".
Definition NTRNLVA_AND :=
  define "NTRNLVA_AND(x)" "NTRNLVA_PRIMITIVE_CAT(NTRNLVA_AND_, x)".
Definition NTRNLVA_AND_0 := define "NTRNLVA_AND_0(y)" "0".
Definition NTRNLVA_AND_1 := define "NTRNLVA_AND_1(y)" "y".
Definition NTRNLVA_CHECK_N := define "NTRNLVA_CHECK_N(x, n, ...)" "n".
Definition NTRNLVA_PROBE := define "NTRNLVA_PROBE(x)" "x, 1,".
Definition NTRNLVA_IS_PAREN :=
  define "NTRNLVA_IS_PAREN(x)" "NTRNLVA_CHECK(NTRNLVA_IS_PAREN_PROBE x)".
Definition NTRNLVA_IS_PAREN_PROBE :=
  define "NTRNLVA_IS_PAREN_PROBE(...)" "NTRNLVA_PROBE(~)".
Definition NTRNLVA_COMPL :=
  define "NTRNLVA_COMPL(b)" "NTRNLVA_PRIMITIVE_CAT(NTRNLVA_COMPL_, b)".
Definition NTRNLVA_COMPL_0 := define "NTRNLVA_COMPL_0" "1".
Definition NTRNLVA_COMPL_1 := define "NTRNLVA_COMPL_1" "0".

Definition NTRNLVA_UP_I := define "NTRNLVA_UP_I(...)" "__VA_ARGS__".
Definition NTRNLVA_UP := define "NTRNLVA_UP(x)" "NTRNLVA_UP_I x".
Definition NTRNLVA_SENTINEL_ := define "NTRNLVA_SENTINEL_" "()()()".
Definition NTRNLVA_IS_SENTINEL2 := define "NTRNLVA_IS_SENTINEL2(...)" "()".
Definition NTRNLVA_IS_SENTINEL1 :=
  define "NTRNLVA_IS_SENTINEL1(...)" "NTRNLVA_IS_SENTINEL2".
Definition NTRNLVA_IS_SENTINEL :=
  define "NTRNLVA_IS_SENTINEL(...)" "NTRNLVA_IS_SENTINEL1".
Definition NTRNLVA_CHECK_SENTINEL :=
  define "NTRNLVA_CHECK_SENTINEL(x)"
         "NTRNLVA_IS_PAREN(NTRNLVA_EXPAND(NTRNLVA_IS_SENTINEL x))".

(** [#if NTRNLVA_IMPL == NTRNLVA_IMPL_NATIVE] *)
Module Native.
Definition NTRNLVA_ISEMPTY_I0 := define "NTRNLVA_ISEMPTY_I0" "1".
Definition NTRNLVA_ISEMPTY_I01 := define "NTRNLVA_ISEMPTY_I01" "0".
Definition NTRNLVA_ISEMPTY_I :=
  define "NTRNLVA_ISEMPTY_I(x)" "NTRNLVA_PRIMITIVE_CAT(NTRNLVA_ISEMPTY_I0, x)".
Definition VA_ISEMPTY :=
  define "VA_ISEMPTY(...)" "NTRNLVA_ISEMPTY_I(__VA_OPT__(1))".
Definition NTRNLVA_NOTEMPTY_I0 := define "NTRNLVA_NOTEMPTY_I0" "0".
Definition NTRNLVA_NOTEMPTY_I01 := define "NTRNLVA_NOTEMPTY_I01" "1".
Definition NTRNLVA_NOTEMPTY_I :=
  define "NTRNLVA_NOTEMPTY_I(x)"
         "NTRNLVA_PRIMITIVE_CAT(NTRNLVA_NOTEMPTY_I0, x)".
Definition VA_NOTEMPTY :=
  define "VA_NOTEMPTY(...)" "NTRNLVA_NOTEMPTY_I(__VA_OPT__(1))".
Definition NTRNLVA_OPT_I :=
  define "NTRNLVA_OPT_I(opt, ...)" "__VA_OPT__(NTRNLVA_UP(opt))".
Definition VA_OPT :=
  define "VA_OPT(args, ...)" "NTRNLVA_OPT_I((__VA_ARGS__), NTRNLVA_UP(args))".
End Native.

(** [#elif NTRNLVA_IMPL == NTRNLVA_IMPL_GNU] *)
Module GNU.
Definition NTRNLVA_ISEMPTY_I :=
  define "NTRNLVA_ISEMPTY_I(_0, _1, _2, ...)" "NTRNLVA_CHECK_SENTINEL(_2)".
Definition NTRNLVA_ISEMPTY_INDIRECT :=
  define "NTRNLVA_ISEMPTY_INDIRECT(...)"
         "NTRNLVA_ISEMPTY_I(,##__VA_ARGS__, 0, NTRNLVA_SENTINEL_)".
Definition VA_ISEMPTY :=
  define "VA_ISEMPTY(...)" "NTRNLVA_ISEMPTY_INDIRECT(__VA_ARGS__)".
Definition VA_NOTEMPTY :=
  define "VA_NOTEMPTY(...)" "NTRNLVA_COMPL(VA_ISEMPTY(__VA_ARGS__))".
End GNU.

(** [#elif NTRNLVA_IMPL == NTRNLVA_IMPL_MSVC] *)
Module MSVC.
Definition NTRNLVA_ISEMPTY_I :=
  define "NTRNLVA_ISEMPTY_I(_0, _1, _2, ...)" "NTRNLVA_CHECK_SENTINEL(_2)".
Definition NTRNLVA_ISEMPTY_INDIRECT :=
  define "NTRNLVA_ISEMPTY_INDIRECT(...)"
         "NTRNLVA_ISEMPTY_I NTRNLVA_EMPTY()(,__VA_ARGS__, 0, NTRNLVA_SENTINEL_)".
Definition VA_ISEMPTY :=
  define "VA_ISEMPTY(...)" "NTRNLVA_ISEMPTY_INDIRECT(__VA_ARGS__)".
Definition VA_NOTEMPTY :=
  define "VA_NOTEMPTY(...)" "NTRNLVA_COMPL(VA_ISEMPTY(__VA_ARGS__))".
End MSVC.

(** [#elif NTRNLVA_IMPL == NTRNLVA_IMPL_C99] *)
Module C99.
Definition NTRNLVA_ISEMPTY_I :=
  define "NTRNLVA_ISEMPTY_I(...)"
         "NTRNLVA_AND(NTRNLVA_ISEMPTY_BASE(NTRNLVA_SEL1(__VA_ARGS__)))
          (NTRNLVA_CHECK_SENTINEL(NTRNLVA_SEL2(__VA_ARGS__)))".
Definition VA_ISEMPTY :=
  define "VA_ISEMPTY(...)" "NTRNLVA_ISEMPTY_I(__VA_ARGS__, NTRNLVA_SENTINEL_)".
Definition VA_NOTEMPTY :=
  define "VA_NOTEMPTY(...)" "NTRNLVA_COMPL(VA_ISEMPTY(__VA_ARGS__))".
Definition NTRNLVA_TRIGGER_PARENTHESIS_ :=
  define "NTRNLVA_TRIGGER_PARENTHESIS_(...)" ",".
Definition NTRNLVA_ISEMPTY_BASE :=
  define "NTRNLVA_ISEMPTY_BASE(...)"
         "NTRNLVA_ISEMPTY_BASE_I(/* test if there is just one argument, eventually an
                                    empty one */
                                 NTRNLVA_HAS_COMMA(
                                     __VA_ARGS__), /* test if
                                                      NTRNLVA_TRIGGER_PARENTHESIS_
                                                      together with the argument adds
                                                      a comma */
                                 NTRNLVA_HAS_COMMA(
                                     NTRNLVA_TRIGGER_PARENTHESIS_
                                         __VA_ARGS__), /* test if the argument
                                                          together with a parenthesis
                                                          adds a comma */
                                 NTRNLVA_HAS_COMMA(__VA_ARGS__(
                                     /*empty*/)), /* test if placing it between
                                                     NTRNLVA_TRIGGER_PARENTHESIS_ and
                                                     the parenthesis adds a comma */
                                 NTRNLVA_HAS_COMMA(
                                     NTRNLVA_TRIGGER_PARENTHESIS_ __VA_ARGS__(
                                         /*empty*/)))".
Definition NTRNLVA_PASTE5 :=
  define "NTRNLVA_PASTE5(_0, _1, _2, _3, _4)" "_0##_1##_2##_3##_4".
Definition NTRNLVA_ISEMPTY_BASE_I :=
  define "NTRNLVA_ISEMPTY_BASE_I(_0, _1, _2, _3)"
         "NTRNLVA_HAS_COMMA(NTRNLVA_PASTE5(NTRNLVA_IS_EMPTY_CASE_, _0, _1, _2, _3))".
Definition NTRNLVA_IS_EMPTY_CASE_0001 :=
  define "NTRNLVA_IS_EMPTY_CASE_0001" ",".
End C99.

(** [#ifdef TEST_VA_OPT]: the macros the self-test passes as arguments. *)
Definition EATER0 := define "EATER0(...)" "".
Definition EATER1 := define "EATER1(...)" ",".
Definition EATER2 := define "EATER2(...)" "(/*empty*/)".
Definition EATER3 := define "EATER3(...)" "(/*empty*/),".
Definition EATER4 := define "EATER4(...)" "EATER1".
Definition EATER5 := define "EATER5(...)" "EATER2".
Definition MAC0 := define "MAC0()" "()".
Definition MAC1 := define "MAC1(x)" "()".
Definition MACV := define "MACV(...)" "()".
Definition MACMANYPLUS :=
  define "MACMANYPLUS(...)"
         "+, +, +, +, +, +, +, +, +, +, +, +, +, +, +, +, +, +, +".
Definition MAC2 := define "MAC2(x, y)" "whatever".

Definition NTRNLVA_OPT_IMPL :=
  define "NTRNLVA_OPT_IMPL(opt, ...)"
         "NTRNLVA_CAT(NTRNLVA_OPT_IMPL_, opt)(__VA_ARGS__)".
Definition NTRNLVA_OPT_IMPL_0 := define "NTRNLVA_OPT_IMPL_0(...)" "__VA_ARGS__".
Definition NTRNLVA_OPT_IMPL_1 := define "NTRNLVA_OPT_IMPL_1(...)" "".

(** [#if NTRNLVA_IMPL != NTRNLVA_IMPL_NATIVE] *)
Definition VA_OPT :=
  define "VA_OPT(args, ...)"
         "NTRNLVA_OPT_IMPL(VA_ISEMPTY(NTRNLVA_UP(args)), __VA_ARGS__)".
Definition VA_NOPT :=
  define "VA_NOPT(args, ...)"
         "NTRNLVA_OPT_IMPL(VA_NOTEMPTY(NTRNLVA_UP(args)), __VA_ARGS__)".

Definition common (trad : bool) : table :=
  [NTRNLVA_EXPAND; NTRNLVA_SEL1_I; NTRNLVA_SEL2_I; NTRNLVA_SEL3_I]
  ++ (if trad
      then [Traditional.NTRNLVA_SEL1; Traditional.NTRNLVA_SEL2;
            Traditional.NTRNLVA_SEL3]
      else [Conforming.NTRNLVA_SEL1; Conforming.NTRNLVA_SEL2;
            Conforming.NTRNLVA_SEL3])
  ++ [NTRNLVA_EMPTY; NTRNLVA_CAT; NTRNLVA_PRIMITIVE_CAT; NTRNLVA_AND;
      NTRNLVA_AND_0; NTRNLVA_AND_1; NTRNLVA_CHECK_N;
      if trad then Traditional.NTRNLVA_CHECK else Conforming.NTRNLVA_CHECK;
      NTRNLVA_PROBE; NTRNLVA_IS_PAREN; NTRNLVA_IS_PAREN_PROBE; NTRNLVA_COMPL;
      NTRNLVA_COMPL_0; NTRNLVA_COMPL_1; NTRNLVA_UP_I; NTRNLVA_UP;
      NTRNLVA_SENTINEL_; NTRNLVA_IS_SENTINEL2; NTRNLVA_IS_SENTINEL1;
      NTRNLVA_IS_SENTINEL; NTRNLVA_CHECK_SENTINEL].

Definition isempty_impl (i : impl) (trad : bool) : table :=
  match i with
  | NTRNLVA_IMPL_NATIVE =>
      [Native.NTRNLVA_ISEMPTY_I0; Native.NTRNLVA_ISEMPTY_I01;
       Native.NTRNLVA_ISEMPTY_I; Native.VA_ISEMPTY;
       Native.NTRNLVA_NOTEMPTY_I0; Native.NTRNLVA_NOTEMPTY_I01;
       Native.NTRNLVA_NOTEMPTY_I; Native.VA_NOTEMPTY]
  | NTRNLVA_IMPL_GNU =>
      [GNU.NTRNLVA_ISEMPTY_I; GNU.NTRNLVA_ISEMPTY_INDIRECT; GNU.VA_ISEMPTY;
       GNU.VA_NOTEMPTY]
  | NTRNLVA_IMPL_MSVC =>
      [MSVC.NTRNLVA_ISEMPTY_I; MSVC.NTRNLVA_ISEMPTY_INDIRECT; MSVC.VA_ISEMPTY;
       MSVC.VA_NOTEMPTY]
  | NTRNLVA_IMPL_C99 =>
      [C99.NTRNLVA_ISEMPTY_I; C99.VA_ISEMPTY; C99.VA_NOTEMPTY;
       if trad then Traditional.NTRNLVA_HAS_COMMA
       else Conforming.NTRNLVA_HAS_COMMA;
       C99.NTRNLVA_TRIGGER_PARENTHESIS_; C99.NTRNLVA_ISEMPTY_BASE;
       C99.NTRNLVA_PASTE5; C99.NTRNLVA_ISEMPTY_BASE_I;
       C99.NTRNLVA_IS_EMPTY_CASE_0001]
  end.

Definition test_macros : table :=
  [EATER0; EATER1; EATER2; EATER3; EATER4; EATER5; MAC0; MAC1; MACV;
   MACMANYPLUS; MAC2].

Definition va_opt_impl (i : impl) : table :=
  [NTRNLVA_OPT_IMPL; NTRNLVA_OPT_IMPL_0; NTRNLVA_OPT_IMPL_1]
  ++ match i with
     | NTRNLVA_IMPL_NATIVE => [Native.NTRNLVA_OPT_I; Native.VA_OPT]
     | _ => [VA_OPT]
     end
  ++ [VA_NOPT].

(** The macros in force after [#include "va_opt.h"] with [TEST_VA_OPT]
    defined, for the selected implementation. *)
Definition header (i : impl) (trad : bool) : table :=
  common trad ++ isempty_impl i trad ++ test_macros ++ va_opt_impl i.

(** Modelled from the spec: the preprocessor each strategy runs on is not
    part of the header.  Native has [__VA_OPT__]; the GNU and MSVC strategies
    run on the comma-eliding toolchains of section 4.2 (the traditional MSVC
    preprocessor also rescans a finished replacement, which the deferred
    call [NTRNLVA_ISEMPTY_I NTRNLVA_EMPTY()(...)] relies on); C99 is the
    standard preprocessor. *)
Definition dialect_of (i : impl) : dialect :=
  match i with
  | NTRNLVA_IMPL_NATIVE => Dialect true false false false
  | NTRNLVA_IMPL_GNU => Dialect false true false false
  | NTRNLVA_IMPL_MSVC => Dialect false false true true
  | NTRNLVA_IMPL_C99 => Dialect false false false false
  end.

Definition traditional (i : impl) : bool :=
  match i with
  | NTRNLVA_IMPL_MSVC => true
  | _ => false
  end.

Definition fuel : nat := 200.

(** [cpp i ts]: the tokens [ts] as the preprocessor leaves them under
    implementation [i]. *)
Definition cpp (i : impl) (ts : list tok) : res (list tok) :=
  preprocess (dialect_of i) (header i (traditional i)) fuel ts.

(** [call "M" args] is the invocation [M(args)]. *)
Definition call (m : string) (args : list tok) : list tok :=
  TId m :: TLParen :: args ++ [TRParen].

(** ** Symbolic tokens and what they stand for

    A symbolic token [TSym k i] stands for the run of caller tokens
    [rho k i].  The runs hold no macro name and are balanced; the kind says
    what else is known about them. *)

Fixpoint depth_ok (k : nat) (b : list tok) : option nat :=
  match b with
  | [] => Some k
  | t :: b' =>
      match t, k with
      | TRParen, 0 => None
      | _, _ => depth_ok (depth_after t k) b'
      end
  end.

(** Every parenthesis of [b] is matched inside [b]. *)
Definition balanced (b : list tok) : bool :=
  match depth_ok 0 b with
  | Some 0 => true
  | _ => false
  end.

(** No comma of [b] lies outside parentheses ([k]: depth at the start). *)
Fixpoint comma_free (k : nat) (b : list tok) : bool :=
  match b with
  | [] => true
  | t :: b' =>
      match t, k with
      | TComma, 0 => false
      | _, _ => comma_free (depth_after t k) b'
      end
  end.

Definition starts_open (b : list tok) : bool :=
  match b with
  | TLParen :: _ => true
  | _ => false
  end.

Definition nonempty {A : Type} (b : list A) : bool :=
  match b with
  | [] => false
  | _ :: _ => true
  end.

Definition pmap (h : list string) (b : list tok) : list ptok :=
  map (fun t => PT t h) b.

(** A caller token that names no macro. *)
Definition inert_tok (env : table) (t : tok) : bool :=
  match t with
  | TId n => match lookup n env with None => true | Some _ => false end
  | TSym _ _ => false
  | _ => true
  end.

Definition inert (env : table) (b : list tok) : bool :=
  forallb (inert_tok env) b.

Definition good (env : table) (k : symkind) (b : list tok) : bool :=
  inert env b && balanced b &&
  match k with
  | SRun => comma_free 0 b && nonempty b && negb (starts_open b)
  | STail => comma_free 0 b
  | SRest | SGroup => true
  end.

Definition assign (runs tails rests groups : list (list tok))
  (k : symkind) (i : nat) : list tok :=
  match k with
  | SRun => nth i runs [TNum "0"]
  | STail => nth i tails []
  | SRest => nth i rests []
  | SGroup => nth i groups []
  end.

Definition sym_run := TSym SRun.

Definition sym_tail := TSym STail.

Definition sym_rest := TSym SRest.

Definition sym_group := TSym SGroup.

(** The shapes of the first item of a list ... *)
Definition first_shapes : list (list tok) :=
  [[]; [sym_run 0]; [sym_group 0; sym_tail 0]].






Definition env_of (i : impl) : table := header i (traditional i).

(** The caller's token lists the general results are about: every
    parenthesis is matched, as in any macro argument, and no token names a
    macro of the header or of its self-test. *)
Definition macro_free (i : impl) (L : list tok) : bool :=
  good (env_of i) SRest L.

Definition bit (b : bool) : list tok := [TNum (if b then "1" else "0")].

Definition impls : list impl :=
  [NTRNLVA_IMPL_NATIVE; NTRNLVA_IMPL_GNU; NTRNLVA_IMPL_MSVC;
   NTRNLVA_IMPL_C99].

(** The self-test: [X(expected, args)] is one case. *)
Definition X (expected : Z) (args : list tok) : Z * list tok :=
  (expected, args).

Definition SINGLE_TEST_CASES : list (Z * list tok) :=
  [X 1 (lex "");
   X 1 (lex "/*comment*/");
   X 0 (lex "a");
   X 0 (lex "(void)");
   X 0 (lex "NTRNLVA_TRIGGER_PARENTHESIS_");
   X 0 (lex "EATER0");
   X 0 (lex "EATER1");
   X 0 (lex "EATER2");
   X 0 (lex "EATER3");
   X 0 (lex "EATER4");
   X 0 (lex "MAC0");
   X 0 (lex "MAC1");
   X 0 (lex "MACV");
   X 0 (lex "MACMANYPLUS");
   X 0 [TStr "unpastable"]].

Definition VARIADIC_TEST_CASES : list (Z * list tok) :=
  [X 0 (lex "+," ++ [TStr "many"; TComma; TStr "unpastable"; TComma;
                     TStr "tokens"; TComma]
        ++ lex "+, +, +, +, +, +, +, +, +, +, +, +");
   X 0 (lex "a, b");
   X 0 (lex "a, b, c");
   X 0 (lex "a, b, c, d");
   X 0 (lex "a, b, c, d, e");
   X 0 (lex "(void), b, c, d")].

Definition ISEMPTY_TEST_CASES : list (Z * list tok) :=
  SINGLE_TEST_CASES ++ VARIADIC_TEST_CASES.


Definition digit (s : string) : option Z :=
  match s with
  | "0" => Some 0%Z
  | "1" => Some 1%Z
  | _ => None
  end.

(** The value of the integer expressions the self-test compares. *)
Definition eval_int (ts : list tok) : option Z :=
  match ts with
  | [TNum a] => digit a
  | [TPunct "!"; TNum a] =>
      option_map (fun v => if Z.eqb v 0 then 1%Z else 0%Z) (digit a)
  | [TNum a; TPunct "-"; TNum b] =>
      match digit a, digit b with
      | Some x, Some y => Some (x - y)%Z
      | _, _ => None
      end
  | [TNum a; TPunct "+"; TNum b] =>
      match digit a, digit b with
      | Some x, Some y => Some (x + y)%Z
      | _, _ => None
      end
  | _ => None
  end.

(** [EXPECT(test, expected, ...)]: 1 when the case fails. *)
Definition EXPECT (test : res (list tok)) (expected : Z) : nat :=
  match test with
  | Ok ts =>
      match eval_int ts with
      | Some result => if Z.eqb result expected then 0 else 1
      | None => 1
      end
  | Err _ => 1
  end.

(** [main]: the number of failed cases over the four loops of the
    self-test. *)
Definition main (i : impl) : nat :=
  let failed (test : list tok -> list tok) :=
    list_sum (map (fun c => EXPECT (cpp i (test (snd c))) (fst c))
                ISEMPTY_TEST_CASES) in
  failed (fun args => call "VA_ISEMPTY" args)
  + failed (fun args => TPunct "!" :: call "VA_NOTEMPTY" args)
  + failed (fun args =>
      TNum "1" :: call "VA_OPT" (TLParen :: args ++ [TRParen; TComma]
                                 ++ lex "-1"))
  + failed (fun args =>
      TNum "0" :: call "VA_NOPT" (TLParen :: args ++ [TRParen; TComma]
                                  ++ lex "+1")).


Definition c99 (ts : list tok) : res (list tok) := cpp NTRNLVA_IMPL_C99 ts.

(** The four comma probes of [NTRNLVA_ISEMPTY_BASE] on the argument [x]. *)
Definition probes (x : list tok) : list (res (list tok)) :=
  [c99 (call "NTRNLVA_HAS_COMMA" x);
   c99 (call "NTRNLVA_HAS_COMMA" (TId "NTRNLVA_TRIGGER_PARENTHESIS_" :: x));
   c99 (call "NTRNLVA_HAS_COMMA" (x ++ [TLParen; TRParen]));
   c99 (call "NTRNLVA_HAS_COMMA"
          (TId "NTRNLVA_TRIGGER_PARENTHESIS_" :: x ++ [TLParen; TRParen]))].

(** [NTRNLVA_ISEMPTY_BASE_I(p1, p2, p3, p4)]: the reduction of the four
    probe results. *)
Definition reduce (p1 p2 p3 p4 : bool) : res (list tok) :=
  c99 (call "NTRNLVA_ISEMPTY_BASE_I"
         (bit p1 ++ [TComma] ++ bit p2 ++ [TComma] ++ bit p3 ++ [TComma]
          ++ bit p4)).





(** The guard list [L], parenthesised as [VA_OPT] and [VA_NOPT] take it. *)
Definition guard (L : list tok) : list tok := TLParen :: L ++ [TRParen].





Definition is_nil {A : Type} (l : list A) : bool :=
  match l with
  | [] => true
  | _ :: _ => false
  end.








(** [ts] fails under implementation [i] with an arity error of the
    macro [n]. *)
Definition fails_arity (i : impl) (ts : list tok) (n : string) : bool :=
  match cpp i ts with
  | Err (Arity m) => String.eqb m n
  | _ => false
  end.

(** The lists whose first item, of shape [sh], ends with the name of
    [MAC2]. *)
Definition MAC2_lists (sh : list tok) : list (list tok) :=
  [sh ++ [TId "MAC2"]; sh ++ [TId "MAC2"; TComma; sym_rest 0]].

(** ** Selection of the implementation

    [Detect __VA_OPT__ support]: the macros in force while the header
    selects its implementation. *)
Module Detection.
Definition NTRNLVA_SEL3 :=
  define "NTRNLVA_SEL3(...)" "NTRNLVA_EXPAND(NTRNLVA_SEL3_I(__VA_ARGS__))".
Definition NTRNLVA_OPT_SUPPORTED_I :=
  define "NTRNLVA_OPT_SUPPORTED_I(...)" "NTRNLVA_SEL3(__VA_OPT__(, ), 1, 0, )".
Definition VA_OPT_SUPPORTED :=
  define "VA_OPT_SUPPORTED" "NTRNLVA_OPT_SUPPORTED_I(?)".
End Detection.

Definition detection : table :=
  [NTRNLVA_EXPAND; NTRNLVA_SEL3_I; Detection.NTRNLVA_SEL3;
   Detection.NTRNLVA_OPT_SUPPORTED_I; Detection.VA_OPT_SUPPORTED].











(** ** The example of the usage notes

    [EXAMPLE USAGE]: the macro the header's notes give as an example, and
    the macro the notes call its equivalent. *)
Definition LOG :=
  define "LOG(fmt, ...)" "printf(fmt VA_OPT((__VA_ARGS__), ,) __VA_ARGS__)".

Module Equivalent.
Definition LOG :=
  define "LOG(fmt, ...)" "printf(fmt __VA_OPT__(,) __VA_ARGS__)".
End Equivalent.






Section Abstraction.
Variable d : dialect.
Variable env : table.
Variable rho : symkind -> nat -> list tok.

Hypothesis rho_good : forall k i, good env k (rho k i) = true.

Definition payload (k : symkind) (i : nat) : list tok :=
  match k with
  | SGroup => TLParen :: rho SGroup i ++ [TRParen]
  | _ => rho k i
  end.

Definition flatten1 (p : ptok) : list ptok :=
  match tk p with
  | TSym k i => pmap (hs p) (payload k i)
  | _ => [p]
  end.

(** The token list a symbolic token list stands for. *)
Definition flat (ts : list ptok) : list ptok := flat_map flatten1 ts.

Definition flat_tok (t : tok) : list tok :=
  match t with
  | TSym k i => payload k i
  | _ => [t]
  end.

Definition flat_toks (ts : list tok) : list tok := flat_map flat_tok ts.

Definition flat_bs (bs : bindings) : bindings :=
  map (fun ka => (fst ka, flat (snd ka))) bs.

Definition hom (f : list ptok -> res (list ptok)) : Prop :=
  forall a r, f a = Ok r -> f (flat a) = Ok (flat r).

Definition flat_st (st : sstate) : sstate :=
  (fst (fst st), snd (fst st), flat (snd st)).

(** A macro that takes no argument at all. *)
Definition nullary (n : string) : bool :=
  match lookup n env with
  | Some m => is_nil (m_params m) && negb (m_variadic m)
  | None => false
  end.

Definition hom_err (f : list ptok -> res (list ptok)) : Prop :=
  forall a n, f a = Err (Arity n) -> nullary n = false ->
              f (flat a) = Err (Arity n).

Lemma flat_app a b : flat (a ++ b) = flat a ++ flat b.
Proof. apply flat_map_app. Qed.

Lemma flat_cons p ts : flat (p :: ts) = flatten1 p ++ flat ts.
Proof. reflexivity. Qed.

Lemma flatten1_real p :
  is_sym p = false -> flatten1 p = [p].
Proof.
  unfold is_sym, flatten1. destruct (tk p); congruence.
Qed.

Lemma flat_real ts : has_sym ts = false -> flat ts = ts.
Proof.
  induction ts as [|p ts IH]; intros H; [reflexivity|].
  cbn [has_sym existsb] in H. apply orb_false_iff in H as [H1 H2].
  rewrite flat_cons, flatten1_real, IH by assumption. reflexivity.
Qed.

Lemma flat_hsadd H ts : flat (hsadd H ts) = hsadd H (flat ts).
Proof.
  induction ts as [|p ts IH]; [reflexivity|].
  cbn [hsadd map]. rewrite !flat_cons. fold (hsadd H ts). rewrite IH.
  unfold hsadd at 2. rewrite map_app. f_equal.
  unfold flatten1; cbn [tk hs]. destruct (tk p) eqn:E; cbn [map];
    rewrite ?E; try reflexivity.
  unfold pmap. rewrite map_map. reflexivity.
Qed.

Lemma flat_plain ts :
  flat (map plain ts) = map plain (flat_toks ts).
Proof.
  induction ts as [|t ts IH]; [reflexivity|].
  cbn [map]. rewrite flat_cons, IH. unfold flat_toks at 2.
  cbn [flat_map]. rewrite map_app. f_equal.
  destruct t; reflexivity.
Qed.


(** *** Runs of caller tokens under argument collection *)

Lemma depth_ok_shift b : forall k k' n,
  depth_ok k b = Some k' -> depth_ok (n + k) b = Some (n + k').
Proof.
  induction b as [|t b IH]; intros k k' n H; cbn [depth_ok] in *.
  - congruence.
  - destruct t; cbn [depth_after] in *; try (apply IH; assumption).
    + rewrite <- Nat.add_succ_r. apply IH. assumption.
    + destruct k as [|k]; [discriminate|].
      rewrite Nat.add_succ_r. cbn [Nat.pred] in *. apply IH. assumption.
Qed.

Lemma depth_ok_app a : forall b k k',
  depth_ok k a = Some k' -> depth_ok k (a ++ b) = depth_ok k' b.
Proof.
  induction a as [|t a IH]; intros b k k' H; cbn [depth_ok app] in *.
  - congruence.
  - destruct t; try (apply IH; assumption).
    destruct k; [discriminate|]. apply IH. assumption.
Qed.

Lemma comma_free_deep b : forall k k' n,
  depth_ok k b = Some k' -> comma_free (S n + k) b = true.
Proof.
  induction b as [|t b IH]; intros k k' n H; [reflexivity|].
  cbn [depth_ok] in H. cbn [comma_free plus].
  destruct t; cbn [depth_after] in *;
    try (apply (IH k k' n); assumption).
  - rewrite <- Nat.add_succ_r. apply (IH (S k) k' n). assumption.
  - destruct k as [|k]; [discriminate|].
    rewrite Nat.add_succ_r. cbn [Nat.pred] in *.
    apply (IH k k' n). assumption.
Qed.

Lemma balanced_depth b : balanced b = true -> depth_ok 0 b = Some 0.
Proof.
  unfold balanced. destruct (depth_ok 0 b) as [[|?]|]; congruence.
Qed.

Lemma good_inert k i : inert env (rho k i) = true.
Proof.
  pose proof (rho_good k i) as H. unfold good in H.
  apply andb_true_iff in H as [H _]. apply andb_true_iff in H as [H _].
  exact H.
Qed.

Lemma good_depth k i : depth_ok 0 (rho k i) = Some 0.
Proof.
  pose proof (rho_good k i) as H. unfold good in H.
  apply andb_true_iff in H as [H _]. apply andb_true_iff in H as [_ H].
  apply balanced_depth. exact H.
Qed.

Lemma payload_inert k i : inert env (payload k i) = true.
Proof.
  unfold payload. destruct k; try apply good_inert.
  unfold inert. cbn [forallb inert_tok]. rewrite forallb_app.
  fold (inert env (rho SGroup i)). rewrite good_inert. reflexivity.
Qed.

Lemma payload_depth k i n : depth_ok n (payload k i) = Some n.
Proof.
  assert (G : forall k', depth_ok n (rho k' i) = Some n).
  { intros k'. pose proof (depth_ok_shift _ _ _ n (good_depth k' i)) as H.
    rewrite Nat.add_0_r in H. exact H. }
  unfold payload. destruct k; try apply G.
  cbn [depth_ok depth_after].
  pose proof (depth_ok_shift _ _ _ (S n) (good_depth SGroup i)) as H.
  rewrite Nat.add_0_r in H.
  rewrite (depth_ok_app _ _ _ _ H). reflexivity.
Qed.

Lemma comma_free_app a : forall b k k',
  depth_ok k a = Some k' ->
  comma_free k (a ++ b) = comma_free k a && comma_free k' b.
Proof.
  induction a as [|t a IH]; intros b k k' H; cbn [depth_ok app] in *.
  - inversion H. reflexivity.
  - cbn [comma_free].
    destruct t; try (apply IH; assumption).
    + destruct k; [discriminate|]. apply IH. assumption.
    + destruct k; [reflexivity|]. apply IH. assumption.
Qed.

Lemma payload_comma_free k i :
  k <> SRest -> comma_free 0 (payload k i) = true.
Proof.
  intros Hk. pose proof (rho_good k i) as H. unfold good in H.
  apply andb_true_iff in H as [_ H].
  unfold payload. destruct k; try congruence.
  - apply andb_true_iff in H as [H _]. apply andb_true_iff in H as [H _].
    exact H.
  - cbn [comma_free depth_after].
    pose proof (depth_ok_shift _ _ _ 1 (good_depth SGroup i)) as D.
    cbn [plus] in D.
    rewrite (comma_free_app _ _ _ _ D).
    pose proof (comma_free_deep _ _ _ 0 (good_depth SGroup i)) as C.
    cbn [plus] in C. rewrite C. reflexivity.
Qed.

Lemma take_group_run b : forall h k k' n xs,
  depth_ok k b = Some k' ->
  take_group (n + k) (pmap h b ++ xs) =
  match take_group (n + k') xs with
  | Some (g, h', r) => Some (pmap h b ++ g, h', r)
  | None => None
  end.
Proof.
  induction b as [|t b IH]; intros h k k' n xs H;
    cbn [pmap map app depth_ok] in *.
  - inversion H; subst.
    destruct (take_group (n + k') xs) as [[[g h'] r]|]; reflexivity.
  - fold (pmap h b). cbn [take_group tk].
    assert (E : forall c, depth_ok c b = Some k' ->
              take_group (n + c) (pmap h b ++ xs) =
              match take_group (n + k') xs with
              | Some (g, h', r) => Some (pmap h b ++ g, h', r)
              | None => None
              end) by (intros c Hc; apply IH; exact Hc).
    destruct t; cbn [depth_after] in *;
      try (rewrite (E k H);
           destruct (take_group (n + k') xs) as [[[g h'] r]|];
           reflexivity).
    + rewrite <- Nat.add_succ_r. rewrite (E (S k) H).
      destruct (take_group (n + k') xs) as [[[g h'] r]|]; reflexivity.
    + destruct k as [|k]; [discriminate|]. cbn [Nat.pred] in H.
      rewrite Nat.add_succ_r. cbn [Nat.pred]. rewrite (E k H).
      destruct (take_group (n + k') xs) as [[[g h'] r]|]; reflexivity.
Qed.

Lemma take_group_flat ts : forall n g h r,
  take_group n ts = Some (g, h, r) ->
  take_group n (flat ts) = Some (flat g, h, flat r).
Proof.
  induction ts as [|p ts IH]; intros n g h r H; [discriminate|].
  rewrite flat_cons. cbn [take_group] in H.
  destruct (is_sym p) eqn:Hs.
  - unfold is_sym in Hs. unfold flatten1.
    destruct (tk p) as [| | | | | | | | |k i] eqn:E; try discriminate.
    cbn [depth_after] in H.
    destruct (take_group n ts) as [[[g' h'] r']|] eqn:T; [|discriminate].
    inversion H; subst.
    pose proof (take_group_run _ (hs p) 0 0 n (flat ts)
                  (payload_depth k i 0)) as R.
    rewrite Nat.add_0_r in R. rewrite R, (IH _ _ _ _ T).
    rewrite flat_cons. unfold flatten1. rewrite E. reflexivity.
  - rewrite (flatten1_real _ Hs). cbn [app take_group].
    unfold is_sym in Hs.
    destruct (tk p) eqn:E; try discriminate;
      try (destruct (take_group (depth_after _ n) ts)
             as [[[g' h'] r']|] eqn:T; [|discriminate];
           inversion H; subst; rewrite (IH _ _ _ _ T);
           rewrite flat_cons, flatten1_real
             by (unfold is_sym; rewrite E; reflexivity);
           reflexivity).
    destruct n as [|n].
    + inversion H; subst. reflexivity.
    + destruct (take_group (depth_after TRParen (S n)) ts)
        as [[[g' h'] r']|] eqn:T; [|discriminate].
      inversion H; subst. rewrite (IH _ _ _ _ T).
      rewrite flat_cons, flatten1_real
        by (unfold is_sym; rewrite E; reflexivity).
      reflexivity.
Qed.

Lemma rbind_ok {A B : Type} (r : res A) (f : A -> res B) (b : B) :
  rbind r f = Ok b -> exists a, r = Ok a /\ f a = Ok b.
Proof.
  destruct r as [a|e]; cbn [rbind]; [|discriminate].
  intros H. exists a. split; [reflexivity | exact H].
Qed.

Lemma split_comma_run b : forall h k k' n xs,
  inert env b = true ->
  depth_ok k b = Some k' ->
  (n = 0 -> comma_free k b = true) ->
  split_comma (n + k) (pmap h b ++ xs) =
  (x <- split_comma (n + k') xs ;; Ok (pmap h b ++ fst x, snd x)).
Proof.
  induction b as [|t b IH]; intros h k k' n xs Hi Hd Hc;
    cbn [pmap map app depth_ok] in *.
  - inversion Hd; subst.
    destruct (split_comma (n + k') xs) as [[a r]|]; reflexivity.
  - fold (pmap h b). cbn [inert forallb] in Hi.
    apply andb_true_iff in Hi as [Ht Hi]. fold (inert env b) in Hi.
    assert (E : forall c, depth_ok c b = Some k' ->
              (n = 0 -> comma_free c b = true) ->
              (x <- split_comma (n + c) (pmap h b ++ xs) ;;
               Ok (PT t h :: fst x, snd x)) =
              (x <- split_comma (n + k') xs ;;
               Ok (PT t h :: pmap h b ++ fst x, snd x))).
    { intros c Hc1 Hc2. rewrite (IH h c k' n xs Hi Hc1 Hc2).
      destruct (split_comma (n + k') xs) as [[a r]|]; reflexivity. }
    cbn [split_comma tk].
    destruct t; cbn [depth_after inert_tok comma_free] in *;
      try discriminate; try (apply E; assumption).
    + rewrite <- Nat.add_succ_r. apply E; assumption.
    + destruct k as [|k]; [discriminate|]. cbn [Nat.pred] in *.
      rewrite Nat.add_succ_r. cbn [Nat.pred]. apply E; assumption.
    + destruct (n + k) as [|c] eqn:Ec.
      * assert (n = 0) as -> by lia. assert (k = 0) as -> by lia.
        specialize (Hc eq_refl). discriminate.
      * rewrite <- Ec. apply E; [assumption|].
        intros Hn. specialize (Hc Hn). destruct k; [discriminate|].
        exact Hc.
Qed.

Lemma split_comma_flat ts : forall n a r,
  split_comma n ts = Ok (a, r) ->
  split_comma n (flat ts) = Ok (flat a, option_map flat r).
Proof.
  induction ts as [|p ts IH]; intros n a r H.
  - inversion H; subst. reflexivity.
  - rewrite flat_cons. cbn [split_comma] in H.
    destruct (is_sym p) eqn:Hs.
    + unfold is_sym in Hs. unfold flatten1.
      destruct (tk p) as [| | | | | | | | |k i] eqn:E; try discriminate.
      assert (H' : (x <- split_comma n ts ;; Ok (p :: fst x, snd x))
                   = Ok (a, r) /\ (n = 0 -> k <> SRest)).
      { destruct k; destruct n; cbn [depth_after] in H;
          try discriminate; (split; [exact H | congruence]). }
      destruct H' as [H' Hk].
      apply rbind_ok in H' as [[a' r'] [T H']]. cbn [fst snd] in H'.
      inversion H'; subst.
      pose proof (split_comma_run _ (hs p) 0 0 n (flat ts)
                    (payload_inert k i) (payload_depth k i 0)) as R.
      rewrite Nat.add_0_r in R. rewrite R.
      * rewrite (IH _ _ _ T). cbn [rbind fst snd].
        rewrite flat_cons. unfold flatten1. rewrite E. reflexivity.
      * intros Hn. apply payload_comma_free. auto.
    + rewrite (flatten1_real _ Hs). cbn [app split_comma].
      assert (F : forall a', flat (p :: a') = p :: flat a').
      { intros a'. rewrite flat_cons, flatten1_real by exact Hs.
        reflexivity. }
      unfold is_sym in Hs.
      destruct (tk p) eqn:E; try discriminate;
        try (apply rbind_ok in H as [[a' r'] [T H]]; cbn [fst snd] in H;
             inversion H; subst; rewrite (IH _ _ _ T);
             cbn [rbind fst snd]; rewrite F; reflexivity).
      destruct n as [|n].
      * inversion H; subst. reflexivity.
      * apply rbind_ok in H as [[a' r'] [T H]]. cbn [fst snd] in H.
        inversion H; subst. rewrite (IH _ _ _ T).
        cbn [rbind fst snd]. rewrite F. reflexivity.
Qed.

(** *** Arguments *)

Lemma bind_named_flat name v ps : forall ts bs,
  bind_named name ps v ts = Ok bs ->
  bind_named name ps v (flat ts) = Ok (flat_bs bs).
Proof.
  induction ps as [|p ps IH]; intros ts bs H; cbn [bind_named] in *.
  - destruct v; [|discriminate]. inversion H; subst. reflexivity.
  - apply rbind_ok in H as [[a r] [T H]]. cbn [fst snd] in H.
    rewrite (split_comma_flat _ _ _ _ T). cbn [rbind fst snd option_map].
    destruct r as [r|]; destruct ps as [|p' ps]; cbn [option_map];
      try discriminate.
    + destruct v; [|discriminate]. inversion H; subst. reflexivity.
    + apply rbind_ok in H as [bs' [B H]]. inversion H; subst.
      rewrite (IH _ _ B). reflexivity.
    + destruct v; inversion H; subst; reflexivity.
Qed.

Lemma bind_args_flat name m content bs :
  bind_args name m content = Ok bs ->
  bind_args name m (flat content) = Ok (flat_bs bs).
Proof.
  unfold bind_args.
  destruct (m_params m) as [|p ps] eqn:P.
  - destruct (m_variadic m) eqn:V.
    + intros H. apply (bind_named_flat _ _ [] _ _ H).
    + destruct content; [|discriminate].
      intros H; inversion H; subst. reflexivity.
  - intros H. apply (bind_named_flat _ _ (p :: ps) _ _ H).
Qed.

Lemma assoc_flat n bs :
  assoc n (flat_bs bs) = option_map flat (assoc n bs).
Proof.
  induction bs as [|[k a] bs IH]; [reflexivity|].
  cbn [flat_bs map assoc fst snd]. fold (flat_bs bs).
  destruct (String.eqb n k); [reflexivity | exact IH].
Qed.

Lemma actual_flat bs t :
  actual (flat_bs bs) t = option_map flat (actual bs t).
Proof. destruct t; try reflexivity. apply assoc_flat. Qed.

Lemma va_actual_flat bs : va_actual (flat_bs bs) = flat (va_actual bs).
Proof.
  unfold va_actual. rewrite assoc_flat.
  destruct (assoc va_args bs); reflexivity.
Qed.

Lemma definite_flatten1 p :
  definite p = true -> existsb definite (flatten1 p) = true.
Proof.
  unfold definite, flatten1. intros H.
  destruct (tk p) as [| | | | | | | | |k i] eqn:E;
    try (cbn [existsb]; unfold definite; rewrite E; reflexivity).
  destruct k; try discriminate.
  - pose proof (rho_good SRun i) as G. unfold good in G.
    apply andb_true_iff in G as [_ G]. apply andb_true_iff in G as [G _].
    apply andb_true_iff in G as [_ G].
    pose proof (good_inert SRun i) as I. unfold payload.
    destruct (rho SRun i) as [|t b]; [discriminate|].
    cbn [inert forallb] in I. apply andb_true_iff in I as [It _].
    cbn [pmap map existsb]. unfold definite; cbn [tk].
    destruct t; try reflexivity. discriminate.
  - reflexivity.
Qed.

Lemma flat_definite ts :
  existsb definite ts = true -> existsb definite (flat ts) = true.
Proof.
  induction ts as [|p ts IH]; [discriminate|].
  cbn [existsb]. rewrite flat_cons, existsb_app. intros H.
  apply orb_true_iff in H as [H|H].
  - rewrite (definite_flatten1 _ H). reflexivity.
  - rewrite (IH H). apply orb_true_r.
Qed.

Lemma is_empty_flat ts e :
  is_empty ts = Ok e -> is_empty (flat ts) = Ok e.
Proof.
  destruct ts as [|p ts]; [intros H; exact H|].
  unfold is_empty. destruct (existsb definite (p :: ts)) eqn:D;
    [|discriminate].
  intros H. apply flat_definite in D.
  destruct (flat (p :: ts)); [discriminate|]. rewrite D. exact H.
Qed.

(** *** Token pasting *)

Lemma glue_nil os : glue os [] = Ok os.
Proof.
  induction os as [|l os IH]; [reflexivity|].
  cbn [glue]. destruct os as [|l' os]; [reflexivity|].
  rewrite IH. reflexivity.
Qed.

Lemma glue_snoc xs : forall l r a,
  glue (xs ++ [l]) (r :: a) =
  match paste_tok (tk l) (tk r) with
  | Some t => Ok (xs ++ PT t (hs_inter (hs l) (hs r)) :: a)
  | None => Err BadPaste
  end.
Proof.
  induction xs as [|x xs IH]; intros l r a; [reflexivity|].
  cbn [app glue]. destruct (xs ++ [l]) as [|y ys] eqn:E.
  - destruct xs; discriminate.
  - rewrite <- E, IH. destruct (paste_tok (tk l) (tk r)); reflexivity.
Qed.

Lemma paste_tok_real a b t :
  paste_tok a b = Some t ->
  (forall k i, a <> TSym k i) /\ (forall k i, t <> TSym k i).
Proof.
  destruct a, b; cbn [paste_tok]; intros H; inversion H; subst;
    split; intros; discriminate.
Qed.

Lemma real_tok_flat (p : ptok) ts :
  (forall k i, tk p <> TSym k i) -> flat (p :: ts) = p :: flat ts.
Proof.
  intros H. rewrite flat_cons, flatten1_real; [reflexivity|].
  unfold is_sym. destruct (tk p) eqn:E; try reflexivity.
  exfalso. eapply H. reflexivity.
Qed.

Lemma glue_flat os a r :
  has_sym a = false ->
  glue os a = Ok r -> glue (flat os) a = Ok (flat r).
Proof.
  intros Ha H. destruct a as [|r0 a].
  - rewrite glue_nil in H. inversion H; subst. apply glue_nil.
  - destruct os as [|l0 os0] using rev_ind.
    + cbn [glue] in H. inversion H; subst.
      rewrite (flat_real _ Ha). reflexivity.
    + clear IHos0. rewrite glue_snoc in H.
      destruct (paste_tok (tk l0) (tk r0)) as [t|] eqn:P; [|discriminate].
      inversion H; subst. apply paste_tok_real in P as P'.
      destruct P' as [P1 P2].
      rewrite !flat_app. rewrite (real_tok_flat l0 []) by exact P1.
      change (flat []) with (@nil ptok).
      rewrite (real_tok_flat (PT t _)) by exact P2.
      rewrite glue_snoc, P.
      cbn [has_sym existsb] in Ha. apply orb_false_iff in Ha as [_ Ha].
      rewrite (flat_real _ Ha). reflexivity.
Qed.

(** *** Substitution *)

Section SubstFlat.
Variable pre : list ptok -> res (list ptok).
Hypothesis pre_hom : hom pre.
Variable bs : bindings.

Lemma step_paste_flat vo t2 is2 os st :
  step_paste bs vo t2 is2 os = Ok st ->
  step_paste (flat_bs bs) vo t2 is2 (flat os) = Ok (flat_st st).
Proof.
  unfold step_paste. rewrite actual_flat.
  destruct (actual bs t2) as [a|]; cbn [option_map].
  - destruct (has_sym a) eqn:Hs; [discriminate|].
    rewrite (flat_real _ Hs), Hs. destruct a as [|r0 a].
    + intros H; inversion H; subst. reflexivity.
    + intros H. apply rbind_ok in H as [os' [G H]].
      inversion H; subst. rewrite (glue_flat _ _ _ Hs G). reflexivity.
  - intros H.
    assert (Hs : has_sym [plain t2] = false)
      by (destruct t2; try reflexivity; discriminate).
    assert (H' : (os' <- glue os [plain t2] ;;
                  Ok (advance t2 vo, is2, os')) = Ok st)
      by (destruct t2; try exact H; discriminate).
    apply rbind_ok in H' as [os' [G H']]. inversion H'; subst.
    rewrite (glue_flat _ _ _ Hs G). destruct t2; try reflexivity.
    discriminate.
Qed.

Lemma flat_snoc_comma os :
  flat (os ++ [plain TComma]) = flat os ++ [plain TComma].
Proof. rewrite flat_app. reflexivity. Qed.

Lemma step_comma_flat vo is1 os st :
  step_comma d bs vo is1 os = Ok st ->
  step_comma d (flat_bs bs) vo is1 (flat os) = Ok (flat_st st).
Proof.
  unfold step_comma. rewrite va_actual_flat.
  assert (K : forall st', Ok (vo, is1, os ++ [plain TComma]) = Ok st' ->
            @Ok sstate (vo, is1, flat os ++ [plain TComma])
            = Ok (flat_st st')).
  { intros st' H; inversion H; subst. unfold flat_st; cbn [fst snd].
    rewrite flat_snoc_comma. reflexivity. }
  destruct is1 as [|t1 is2]; [apply K|].
  assert (M : forall is3,
            (if d_msvc_comma d && is_id va_args t1
             then e <- is_empty (va_actual bs) ;;
                  if e : bool then Ok (vo, is3, os)
                  else Ok (vo, t1 :: is2, os ++ [plain TComma])
             else Ok (vo, t1 :: is2, os ++ [plain TComma])) = Ok st ->
            (if d_msvc_comma d && is_id va_args t1
             then e <- is_empty (flat (va_actual bs)) ;;
                  if e : bool then Ok (vo, is3, flat os)
                  else Ok (vo, t1 :: is2, flat os ++ [plain TComma])
             else Ok (vo, t1 :: is2, flat os ++ [plain TComma]))
            = Ok (flat_st st)).
  { intros is3. destruct (d_msvc_comma d && is_id va_args t1);
      [|apply K].
    intros H. apply rbind_ok in H as [e [E H]].
    rewrite (is_empty_flat _ _ E). cbn [rbind].
    destruct e; [|apply K; exact H].
    inversion H; subst. reflexivity. }
  destruct t1; try apply M.
  destruct is2 as [|t2 is3]; [apply (M [])|].
  destruct (d_gnu_comma d && is_id va_args t2); [|apply K].
  intros H. apply rbind_ok in H as [e [E H]].
  rewrite (is_empty_flat _ _ E). cbn [rbind].
  destruct e; inversion H; subst; unfold flat_st; cbn [fst snd].
  - reflexivity.
  - rewrite flat_app, real_tok_flat by (intros; discriminate).
    reflexivity.
Qed.

Lemma step_param_flat vo a is1 os st :
  step_param pre bs vo a is1 os = Ok st ->
  step_param pre (flat_bs bs) vo (flat a) is1 (flat os)
  = Ok (flat_st st).
Proof.
  unfold step_param.
  assert (P : (a' <- pre a ;; Ok (vo, is1, os ++ a')) = Ok st ->
              (a' <- pre (flat a) ;; Ok (vo, is1, flat os ++ a'))
              = Ok (flat_st st)).
  { intros H. apply rbind_ok in H as [a' [A H]]. inversion H; subst.
    rewrite (pre_hom _ _ A). unfold flat_st; cbn [rbind fst snd].
    rewrite flat_app. reflexivity. }
  destruct is1 as [|t1 is2]; [exact P|].
  destruct t1; try exact P.
  destruct (has_sym a) eqn:Hs; [discriminate|].
  rewrite (flat_real _ Hs), Hs.
  destruct a as [|a0 a].
  - destruct is2 as [|t2 is3]; [discriminate|].
    rewrite actual_flat. destruct (actual bs t2) as [a2|];
      cbn [option_map].
    + destruct (has_sym a2) eqn:Hs2; [discriminate|].
      rewrite (flat_real _ Hs2), Hs2.
      intros H; inversion H; subst. unfold flat_st; cbn [fst snd].
      rewrite flat_app, (flat_real _ Hs2). reflexivity.
    + intros H; inversion H; subst. reflexivity.
  - intros H; inversion H; subst. unfold flat_st; cbn [fst snd].
    rewrite flat_app, (flat_real _ Hs). reflexivity.
Qed.

Lemma step_other_flat vo t is1 os st :
  (forall k i, t <> TSym k i) ->
  step_other d pre bs vo t is1 os = Ok st ->
  step_other d pre (flat_bs bs) vo t is1 (flat os) = Ok (flat_st st).
Proof.
  intros Ht. unfold step_other.
  destruct (d_va_opt d && is_id va_opt t).
  - destruct is1 as [|t1 is2]; [discriminate|].
    destruct t1; try discriminate.
    intros H. apply rbind_ok in H as [a [A H]].
    apply rbind_ok in H as [e [E H]]. inversion H; subst.
    rewrite va_actual_flat, (pre_hom _ _ A). cbn [rbind].
    rewrite (is_empty_flat _ _ E). reflexivity.
  - rewrite actual_flat. destruct (actual bs t) as [a|];
      cbn [option_map].
    + apply step_param_flat.
    + intros H; inversion H; subst. unfold flat_st; cbn [fst snd].
      rewrite flat_app, (real_tok_flat (plain t) []) by exact Ht.
      reflexivity.
Qed.

Lemma step_token_flat vo t is1 os st :
  step_token d pre bs vo t is1 os = Ok st ->
  step_token d pre (flat_bs bs) vo t is1 (flat os) = Ok (flat_st st).
Proof.
  destruct t; cbn [step_token]; try discriminate;
    try (apply step_other_flat; intros; discriminate).
  - apply step_comma_flat.
  - destruct is1 as [|t2 is2]; [discriminate|]. apply step_paste_flat.
Qed.

Lemma subst_step_flat vo t is1 os st :
  subst_step d pre bs vo t is1 os = Ok st ->
  subst_step d pre (flat_bs bs) vo t is1 (flat os) = Ok (flat_st st).
Proof.
  unfold subst_step.
  destruct vo as [[[|] [|n]]|]; destruct t;
    try apply step_token_flat;
    intros H; inversion H; subst; reflexivity.
Qed.

Lemma subst_loop_flat n : forall vo body os r,
  subst_loop d pre bs n vo body os = Ok r ->
  subst_loop d pre (flat_bs bs) n vo body (flat os) = Ok (flat r).
Proof.
  induction n as [|n IH]; intros vo body os r H;
    destruct body as [|t is1]; cbn [subst_loop] in *;
    try discriminate; try (inversion H; subst; reflexivity).
  apply rbind_ok in H as [st [S H]].
  rewrite (subst_step_flat _ _ _ _ _ S). cbn [rbind].
  apply IH in H. exact H.
Qed.

Lemma subst_flat body r :
  subst d pre bs body = Ok r ->
  subst d pre (flat_bs bs) body = Ok (flat r).
Proof. unfold subst. apply (subst_loop_flat _ _ _ []). Qed.
End SubstFlat.

(** *** A macro that ignores its arguments *)

Lemma plain_step pre c t is1 os :
  plain_body (t :: is1) = true ->
  subst_step d pre [(va_args, c)] None t is1 os
  = Ok (None, is1, os ++ [plain t]).
Proof.
  intros H. cbn [plain_body forallb] in H.
  apply andb_true_iff in H as [Ht H1].
  assert (O : forall t', negb (is_id va_args t') && negb (is_id va_opt t')
                         = true ->
              step_other d pre [(va_args, c)] None t' is1 os
              = Ok (None, is1, os ++ [plain t'])).
  { intros t' Hn. apply andb_true_iff in Hn as [Ha Ho].
    apply negb_true_iff in Ha, Ho. unfold step_other.
    rewrite Ho, andb_false_r.
    destruct t'; try reflexivity.
    cbn [actual assoc]. cbn [is_id] in Ha. rewrite Ha. reflexivity. }
  unfold subst_step. cbn [advance].
  destruct t; cbn [step_token]; try discriminate; try (apply O; exact Ht).
  unfold step_comma. destruct is1 as [|t1 is2]; [reflexivity|].
  cbn [forallb] in H1. apply andb_true_iff in H1 as [H1 _].
  assert (Hv : is_id va_args t1 = false).
  { destruct t1; try reflexivity; try discriminate.
    apply andb_true_iff in H1 as [Ha _]. apply negb_true_iff in Ha.
    exact Ha. }
  rewrite Hv, andb_false_r. destruct t1; try reflexivity. discriminate.
Qed.

Lemma plain_loop pre c body : forall n os,
  length body <= n ->
  plain_body body = true ->
  subst_loop d pre [(va_args, c)] n None body os
  = Ok (os ++ map plain body).
Proof.
  induction body as [|t body IH]; intros n os Hn Hp.
  - destruct n; cbn [subst_loop map]; rewrite app_nil_r; reflexivity.
  - destruct n as [|n]; [cbn [length] in Hn; lia|].
    cbn [subst_loop]. rewrite (plain_step _ _ _ _ _ Hp).
    cbn [rbind fst snd]. rewrite IH.
    + rewrite <- app_assoc. reflexivity.
    + cbn [length] in Hn. lia.
    + cbn [plain_body forallb] in Hp.
      apply andb_true_iff in Hp as [_ Hp]. exact Hp.
Qed.

Lemma subst_plain pre c body :
  plain_body body = true ->
  subst d pre [(va_args, c)] body = Ok (map plain body).
Proof.
  intros H. unfold subst. apply (plain_loop _ _ _ _ []); [lia | exact H].
Qed.

Lemma plain_body_real body :
  plain_body body = true -> has_sym (map plain body) = false.
Proof.
  induction body as [|t body IH]; [reflexivity|].
  cbn [plain_body forallb map has_sym existsb]. intros H.
  apply andb_true_iff in H as [Ht H]. fold (has_sym (map plain body)).
  rewrite (IH H), orb_false_r. destruct t; try reflexivity. discriminate.
Qed.

(** *** Scanning *)

Section ScanFlat.
Variable pre rec : list ptok -> res (list ptok).
Hypothesis pre_hom : hom pre.
Hypothesis rec_hom : hom rec.

Lemma scan_run b : forall h xs,
  inert env b = true ->
  scan d env pre rec (pmap h b ++ xs) =
  (r <- scan d env pre rec xs ;; Ok (pmap h b ++ r)).
Proof.
  induction b as [|t b IH]; intros h xs Hi; cbn [pmap map app].
  - destruct (scan d env pre rec xs); reflexivity.
  - fold (pmap h b). cbn [inert forallb] in Hi.
    apply andb_true_iff in Hi as [Ht Hi]. fold (inert env b) in Hi.
    assert (R : rcons (PT t h) (scan d env pre rec (pmap h b ++ xs))
                = (r <- scan d env pre rec xs ;;
                   Ok (PT t h :: pmap h b ++ r))).
    { rewrite (IH _ _ Hi).
      destruct (scan d env pre rec xs); reflexivity. }
    cbn [scan tk hs]. destruct t; try exact R.
    cbn [inert_tok] in Ht.
    destruct (lookup s env); [discriminate|].
    destruct (mem s h); exact R.
Qed.

Lemma invoke_none n p m rest :
  invoke d pre rec n p m rest = None ->
  invoke d pre rec n p m (flat rest) = None.
Proof.
  destruct rest as [|q rest1]; [reflexivity|].
  cbn [invoke]. rewrite flat_cons. unfold flatten1.
  destruct (tk q) as [| | | | | | | | |k i] eqn:E; cbn [app invoke];
    rewrite ?E; try reflexivity; try discriminate.
  destruct k; try discriminate. intros _.
  pose proof (rho_good SRun i) as G. unfold good in G.
  apply andb_true_iff in G as [_ G].
  apply andb_true_iff in G as [G Ho]. apply andb_true_iff in G as [_ G].
  pose proof (good_inert SRun i) as I. unfold payload.
  destruct (rho SRun i) as [|t b]; [discriminate|].
  cbn [inert forallb] in I. apply andb_true_iff in I as [It _].
  cbn [pmap map app invoke tk].
  destruct t; try reflexivity; discriminate.
Qed.

Lemma invoke_some n p m rest x r :
  invoke d pre rec n p m rest = Some x -> x = Ok r ->
  invoke d pre rec n p m (flat rest) = Some (Ok (flat r)).
Proof.
  destruct rest as [|q rest1]; [discriminate|].
  cbn [invoke]. rewrite flat_cons. unfold flatten1.
  destruct (tk q) as [| | | | | | | | |k i] eqn:E; try discriminate.
  - intros H ->. injection H as Hx.
    cbn [app invoke]. rewrite E.
    destruct (take_group 0 rest1) as [[[content hq] rest2]|] eqn:T;
      [|discriminate].
    rewrite (take_group_flat _ _ _ _ _ T).
    apply rbind_ok in Hx as [bs [B Hx]].
    apply rbind_ok in Hx as [r0 [S Hx]].
    rewrite (bind_args_flat _ _ _ _ B). cbn [rbind].
    rewrite (subst_flat _ pre_hom _ _ _ S). cbn [rbind].
    apply rec_hom in Hx. rewrite flat_app, flat_hsadd in Hx.
    rewrite Hx. reflexivity.
  - destruct k; try discriminate.
    + intros H ->. discriminate.
    + intros H ->. discriminate.
    + intros H ->. injection H as Hx.
      destruct (ignores_args m) eqn:Ig; [|discriminate].
      unfold ignores_args in Ig.
      apply andb_true_iff in Ig as [Ig Hp].
      apply andb_true_iff in Ig as [Hv Hps].
      unfold payload. cbn [pmap map app invoke tk].
      fold (pmap (hs q) (rho SGroup i ++ [TRParen])).
      unfold pmap at 1. rewrite map_app. cbn [map].
      fold (pmap (hs q) (rho SGroup i)). rewrite <- app_assoc.
      cbn [app].
      pose proof (take_group_run _ (hs q) 0 0 0
                    (PT TRParen (hs q) :: flat rest1)
                    (good_depth SGroup i)) as R.
      cbn [plus take_group tk hs] in R. rewrite R.
      unfold bind_args.
      destruct (m_params m); [|discriminate]. rewrite Hv.
      cbn [bind_named rbind]. rewrite (subst_plain _ _ _ Hp).
      cbn [rbind]. apply rec_hom in Hx.
      rewrite flat_app, flat_hsadd in Hx.
      rewrite (flat_real _ (plain_body_real _ Hp)) in Hx.
      rewrite Hx. reflexivity.
Qed.

Lemma scan_flat ts : forall r,
  scan d env pre rec ts = Ok r ->
  scan d env pre rec (flat ts) = Ok (flat r).
Proof.
  induction ts as [|p rest IH]; intros r H.
  - inversion H; subst. reflexivity.
  - assert (C : forall r', rcons p (scan d env pre rec rest) = Ok r' ->
                (x <- scan d env pre rec (flat rest) ;;
                 Ok (flatten1 p ++ x)) = Ok (flat r')).
    { intros r' Hr. apply rbind_ok in Hr as [x [X Hr]].
      inversion Hr; subst. rewrite (IH _ X). reflexivity. }
    rewrite flat_cons. cbn [scan] in H.
    destruct (is_sym p) eqn:Hs.
    + unfold is_sym in Hs.
      destruct (tk p) as [| | | | | | | | |k i] eqn:E; try discriminate.
      apply C in H. unfold flatten1 in *. rewrite E in *.
      rewrite scan_run by apply payload_inert. exact H.
    + assert (C' : forall r',
                rcons p (scan d env pre rec rest) = Ok r' ->
                rcons p (scan d env pre rec (flat rest))
                = Ok (flat r')).
      { intros r' Hr. apply C in Hr.
        rewrite (flatten1_real _ Hs) in Hr. exact Hr. }
      rewrite (flatten1_real _ Hs). cbn [app scan].
      destruct (tk p) eqn:E; try (apply C'; exact H).
      destruct (mem s (hs p)); [apply C'; exact H|].
      destruct (lookup s env) as [m|]; [|apply C'; exact H].
      destruct (m_fun m).
      * destruct (invoke d pre rec s p m rest) as [x|] eqn:I.
        -- rewrite (invoke_some _ _ _ _ _ _ I H). reflexivity.
        -- rewrite (invoke_none _ _ _ _ I). apply C'; exact H.
      * apply rbind_ok in H as [r0 [S H]].
        pose proof (subst_flat _ pre_hom _ _ _ S) as S'.
        cbn [flat_bs map] in S'. rewrite S'. cbn [rbind].
        apply rec_hom in H. rewrite flat_app, flat_hsadd in H.
        exact H.
Qed.
End ScanFlat.

Lemma twice_hom ex : hom ex -> hom (twice d ex).
Proof.
  intros H a r. unfold twice. intros T.
  apply rbind_ok in T as [x [X T]]. rewrite (H _ _ X). cbn [rbind].
  destruct (d_rescan d).
  - apply H. exact T.
  - inversion T; subst. reflexivity.
Qed.

Lemma expand_hom n : hom (expand d env n).
Proof.
  induction n as [|n IH]; intros a r H; [discriminate|].
  cbn [expand] in *.
  apply (scan_flat _ _ (twice_hom _ IH) IH). exact H.
Qed.

(** *** Arity errors

    An arity error of the symbolic run is an arity error of every run it
    stands for, unless the macro takes no argument at all: a symbolic
    argument may stand for no token. *)

Lemma rbind_err {A B : Type} (r : res A) (f : A -> res B) (e : error) :
  rbind r f = Err e -> r = Err e \/ exists a, r = Ok a /\ f a = Err e.
Proof.
  destruct r as [a|e']; cbn [rbind]; intros H.
  - right. exists a. split; [reflexivity | exact H].
  - left. injection H as ->. reflexivity.
Qed.

Lemma split_comma_err ts : forall n e,
  split_comma n ts = Err e -> e = Symbolic.
Proof.
  induction ts as [|p ts IH]; intros n e H; [discriminate|].
  cbn [split_comma] in H.
  assert (R : (x <- split_comma (depth_after (tk p) n) ts ;;
               Ok (p :: fst x, snd x)) = Err e -> e = Symbolic).
  { intros H'. apply rbind_err in H' as [H'|(x & _ & H')];
      [exact (IH _ _ H') | discriminate]. }
  destruct (tk p) as [| | | | | | | | |k i]; try (apply R; exact H).
  - destruct n; [discriminate | apply R; exact H].
  - destruct k; try (apply R; exact H).
    destruct n; [congruence | apply R; exact H].
Qed.

Lemma bind_named_name name v ps : forall ts n,
  bind_named name ps v ts = Err (Arity n) -> n = name.
Proof.
  induction ps as [|p ps IH]; intros ts n H; cbn [bind_named] in H.
  - destruct v; congruence.
  - apply rbind_err in H as [H|([a r] & _ & H)].
    + apply split_comma_err in H. discriminate.
    + cbn [fst snd] in H. destruct r as [r|]; destruct ps as [|p' ps];
        try congruence.
      * destruct v; congruence.
      * apply rbind_err in H as [H|(bs & _ & H)];
          [exact (IH _ _ H) | discriminate].
Qed.

Lemma bind_named_err name v ps : forall ts n,
  bind_named name ps v ts = Err (Arity n) ->
  bind_named name ps v (flat ts) = Err (Arity n).
Proof.
  induction ps as [|p ps IH]; intros ts n H; cbn [bind_named] in *.
  - destruct v; [discriminate | exact H].
  - apply rbind_err in H as [H|([a r] & T & H)].
    + apply split_comma_err in H. discriminate.
    + cbn [fst snd] in H.
      rewrite (split_comma_flat _ _ _ _ T). cbn [rbind fst snd].
      destruct r as [r|]; destruct ps as [|p' ps]; cbn [option_map];
        try discriminate; try exact H.
      * destruct v; [discriminate | exact H].
      * apply rbind_err in H as [H|(bs & _ & H)]; [|discriminate].
        rewrite (IH _ _ H). reflexivity.
Qed.

Lemma bind_args_name name m content n :
  bind_args name m content = Err (Arity n) -> n = name.
Proof.
  unfold bind_args.
  destruct (m_params m) as [|p ps].
  - destruct (m_variadic m).
    + apply bind_named_name.
    + destruct content; congruence.
  - apply bind_named_name.
Qed.

Lemma bind_args_err name m content n :
  is_nil (m_params m) && negb (m_variadic m) = false ->
  bind_args name m content = Err (Arity n) ->
  bind_args name m (flat content) = Err (Arity n).
Proof.
  unfold bind_args.
  destruct (m_params m) as [|p ps].
  - destruct (m_variadic m); [|discriminate].
    intros _ H. apply (bind_named_err _ _ [] _ _ H).
  - intros _ H. apply (bind_named_err _ _ (p :: ps) _ _ H).
Qed.

Lemma is_empty_err ts e : is_empty ts = Err e -> e = Symbolic.
Proof.
  destruct ts as [|p ts]; [discriminate|]. unfold is_empty.
  destruct (existsb definite (p :: ts)); congruence.
Qed.

Lemma glue_err os : forall a e, glue os a = Err e -> e = BadPaste.
Proof.
  induction os as [|l os IH]; intros a e H; [discriminate|].
  cbn [glue] in H. destruct os as [|l' os].
  - destruct a as [|r a]; [discriminate|].
    destruct (paste_tok (tk l) (tk r)); congruence.
  - apply rbind_err in H as [H|(x & _ & H)];
      [exact (IH _ _ H) | discriminate].
Qed.

Section SubstErr.
Variable pre : list ptok -> res (list ptok).
Hypothesis pre_hom : hom pre.
Hypothesis pre_err : hom_err pre.
Variable bs : bindings.

Lemma step_paste_err vo t2 is2 os n :
  step_paste bs vo t2 is2 os = Err (Arity n) -> False.
Proof.
  unfold step_paste.
  assert (G : forall a (k : list ptok -> res sstate),
            (forall x, k x <> Err (Arity n)) ->
            (os' <- glue os a ;; k os') = Err (Arity n) -> False).
  { intros a k K H. apply rbind_err in H as [H|(x & _ & H)].
    - apply glue_err in H. discriminate.
    - exact (K _ H). }
  destruct (actual bs t2) as [a|].
  - destruct (has_sym a); [discriminate|].
    destruct a; [discriminate|]. apply G. intros; discriminate.
  - destruct t2; try discriminate; apply G; intros; discriminate.
Qed.

Lemma step_comma_err vo is1 os n :
  step_comma d bs vo is1 os = Err (Arity n) -> False.
Proof.
  unfold step_comma.
  assert (E : forall k : bool -> res sstate,
            (forall x, k x <> Err (Arity n)) ->
            (e <- is_empty (va_actual bs) ;; k e) = Err (Arity n) -> False).
  { intros k K H. apply rbind_err in H as [H|(x & _ & H)].
    - apply is_empty_err in H. discriminate.
    - exact (K _ H). }
  assert (M : forall st1 st2 : sstate, forall t1,
            (if d_msvc_comma d && is_id va_args t1
             then e <- is_empty (va_actual bs) ;;
                  if e : bool then Ok st1 else Ok st2
             else Ok st2) = Err (Arity n) -> False).
  { intros st1 st2 t1. destruct (d_msvc_comma d && is_id va_args t1);
      [|discriminate].
    apply E. intros []; discriminate. }
  destruct is1 as [|t1 is2]; [discriminate|].
  destruct t1; try apply M.
  destruct is2 as [|t2 is3]; [apply M|].
  destruct (d_gnu_comma d && is_id va_args t2); [|discriminate].
  apply E. intros []; discriminate.
Qed.

Lemma step_param_err vo a is1 os n :
  nullary n = false ->
  step_param pre bs vo a is1 os = Err (Arity n) ->
  step_param pre (flat_bs bs) vo (flat a) is1 (flat os) = Err (Arity n).
Proof.
  intros Hn. unfold step_param.
  assert (P : (a' <- pre a ;; Ok (vo, is1, os ++ a')) = Err (Arity n) ->
              (a' <- pre (flat a) ;; Ok (vo, is1, flat os ++ a'))
              = Err (Arity n)).
  { intros H. apply rbind_err in H as [H|(x & _ & H)]; [|discriminate].
    rewrite (pre_err _ _ H Hn). reflexivity. }
  destruct is1 as [|t1 is2]; [exact P|].
  destruct t1; try exact P.
  destruct (has_sym a); [discriminate|].
  destruct a as [|a0 a]; [|discriminate].
  destruct is2 as [|t2 is3]; [discriminate|].
  destruct (actual bs t2) as [a2|]; [|discriminate].
  destruct (has_sym a2); discriminate.
Qed.

Lemma step_other_err vo t is1 os n :
  nullary n = false ->
  step_other d pre bs vo t is1 os = Err (Arity n) ->
  step_other d pre (flat_bs bs) vo t is1 (flat os) = Err (Arity n).
Proof.
  intros Hn. unfold step_other.
  destruct (d_va_opt d && is_id va_opt t).
  - destruct is1 as [|t1 is2]; [discriminate|].
    destruct t1; try discriminate.
    intros H. apply rbind_err in H as [H|(a & _ & H)].
    + rewrite va_actual_flat, (pre_err _ _ H Hn). reflexivity.
    + apply rbind_err in H as [H|(e & _ & H)]; [|discriminate].
      apply is_empty_err in H. discriminate.
  - rewrite actual_flat. destruct (actual bs t) as [a|]; cbn [option_map].
    + apply step_param_err. exact Hn.
    + discriminate.
Qed.

Lemma step_token_err vo t is1 os n :
  nullary n = false ->
  step_token d pre bs vo t is1 os = Err (Arity n) ->
  step_token d pre (flat_bs bs) vo t is1 (flat os) = Err (Arity n).
Proof.
  intros Hn.
  destruct t; cbn [step_token]; try discriminate;
    try (apply step_other_err; exact Hn).
  - intros H. destruct (step_comma_err _ _ _ _ H).
  - destruct is1 as [|t2 is2]; [discriminate|].
    intros H. destruct (step_paste_err _ _ _ _ _ H).
Qed.

Lemma subst_step_err vo t is1 os n :
  nullary n = false ->
  subst_step d pre bs vo t is1 os = Err (Arity n) ->
  subst_step d pre (flat_bs bs) vo t is1 (flat os) = Err (Arity n).
Proof.
  intros Hn. unfold subst_step.
  destruct vo as [[[|] [|k]]|]; destruct t;
    try (apply step_token_err; exact Hn); discriminate.
Qed.

Lemma subst_loop_err k : forall vo body os n,
  nullary n = false ->
  subst_loop d pre bs k vo body os = Err (Arity n) ->
  subst_loop d pre (flat_bs bs) k vo body (flat os) = Err (Arity n).
Proof.
  induction k as [|k IH]; intros vo body os n Hn H;
    destruct body as [|t is1]; cbn [subst_loop] in *; try discriminate.
  apply rbind_err in H as [H|(st & S & H)].
  - rewrite (subst_step_err _ _ _ _ _ Hn H). reflexivity.
  - rewrite (subst_step_flat _ pre_hom _ _ _ _ _ _ S). cbn [rbind].
    apply (IH _ _ _ _ Hn H).
Qed.

Lemma subst_err body n :
  nullary n = false ->
  subst d pre bs body = Err (Arity n) ->
  subst d pre (flat_bs bs) body = Err (Arity n).
Proof. unfold subst. apply (subst_loop_err _ _ _ []). Qed.
End SubstErr.

Section ScanErr.
Variable pre rec : list ptok -> res (list ptok).
Hypothesis pre_hom : hom pre.
Hypothesis rec_hom : hom rec.
Hypothesis pre_err : hom_err pre.
Hypothesis rec_err : hom_err rec.

Lemma invoke_err n p m rest e :
  lookup n env = Some m ->
  invoke d pre rec n p m rest = Some (Err (Arity e)) ->
  nullary e = false ->
  invoke d pre rec n p m (flat rest) = Some (Err (Arity e)).
Proof.
  intros Hm. destruct rest as [|q rest1]; [discriminate|].
  cbn [invoke]. rewrite flat_cons. unfold flatten1.
  destruct (tk q) as [| | | | | | | | |k i] eqn:E; try discriminate.
  - intros H He. injection H as Hx. cbn [app invoke]. rewrite E.
    destruct (take_group 0 rest1) as [[[content hq] rest2]|] eqn:T;
      [|discriminate].
    rewrite (take_group_flat _ _ _ _ _ T).
    apply rbind_err in Hx as [B|(bs & B & Hx)].
    + pose proof (bind_args_name _ _ _ _ B) as N. subst e.
      unfold nullary in He. rewrite Hm in He.
      rewrite (bind_args_err _ _ _ _ He B). reflexivity.
    + rewrite (bind_args_flat _ _ _ _ B). cbn [rbind].
      apply rbind_err in Hx as [S|(r0 & S & Hx)].
      * rewrite (subst_err _ pre_hom pre_err _ _ _ He S). reflexivity.
      * rewrite (subst_flat _ pre_hom _ _ _ S). cbn [rbind].
        pose proof (rec_err _ _ Hx He) as Hr.
        rewrite flat_app, flat_hsadd in Hr. rewrite Hr. reflexivity.
  - destruct k; try discriminate.
    intros H He. injection H as Hx.
    destruct (ignores_args m) eqn:Ig; [|discriminate].
    unfold ignores_args in Ig.
    apply andb_true_iff in Ig as [Ig Hp].
    apply andb_true_iff in Ig as [Hv Hps].
    unfold payload. cbn [pmap map app invoke tk].
    fold (pmap (hs q) (rho SGroup i ++ [TRParen])).
    unfold pmap at 1. rewrite map_app. cbn [map].
    fold (pmap (hs q) (rho SGroup i)). rewrite <- app_assoc.
    cbn [app].
    pose proof (take_group_run _ (hs q) 0 0 0
                  (PT TRParen (hs q) :: flat rest1)
                  (good_depth SGroup i)) as R.
    cbn [plus take_group tk hs] in R. rewrite R.
    unfold bind_args.
    destruct (m_params m); [|discriminate]. rewrite Hv.
    cbn [bind_named rbind]. rewrite (subst_plain _ _ _ Hp).
    cbn [rbind]. pose proof (rec_err _ _ Hx He) as Hr.
    rewrite flat_app, flat_hsadd in Hr.
    rewrite (flat_real _ (plain_body_real _ Hp)) in Hr.
    rewrite Hr. reflexivity.
Qed.

Lemma scan_err ts : forall n,
  nullary n = false ->
  scan d env pre rec ts = Err (Arity n) ->
  scan d env pre rec (flat ts) = Err (Arity n).
Proof.
  induction ts as [|p rest IH]; intros n Hn H; [discriminate|].
  assert (C : rcons p (scan d env pre rec rest) = Err (Arity n) ->
              (x <- scan d env pre rec (flat rest) ;;
               Ok (flatten1 p ++ x)) = Err (Arity n)).
  { intros Hr. apply rbind_err in Hr as [Hr|(x & _ & Hr)]; [|discriminate].
    rewrite (IH _ Hn Hr). reflexivity. }
  rewrite flat_cons. cbn [scan] in H.
  destruct (is_sym p) eqn:Hs.
  - unfold is_sym in Hs.
    destruct (tk p) as [| | | | | | | | |k i] eqn:E; try discriminate.
    apply C in H. unfold flatten1 in *. rewrite E in *.
    rewrite scan_run by apply payload_inert. exact H.
  - assert (C' : rcons p (scan d env pre rec rest) = Err (Arity n) ->
                 rcons p (scan d env pre rec (flat rest)) = Err (Arity n)).
    { intros Hr. apply C in Hr.
      rewrite (flatten1_real _ Hs) in Hr. exact Hr. }
    rewrite (flatten1_real _ Hs). cbn [app scan].
    destruct (tk p) eqn:E; try (apply C'; exact H).
    destruct (mem s (hs p)); [apply C'; exact H|].
    destruct (lookup s env) as [m|] eqn:Lm; [|apply C'; exact H].
    destruct (m_fun m).
    + destruct (invoke d pre rec s p m rest) as [x|] eqn:I.
      * subst x. rewrite (invoke_err _ _ _ _ _ Lm I Hn). reflexivity.
      * rewrite (invoke_none _ _ _ _ _ _ I). apply C'; exact H.
    + apply rbind_err in H as [S|(r0 & S & H)].
      * pose proof (subst_err _ pre_hom pre_err _ _ _ Hn S) as S'.
        cbn [flat_bs map] in S'. rewrite S'. reflexivity.
      * pose proof (subst_flat _ pre_hom _ _ _ S) as S'.
        cbn [flat_bs map] in S'. rewrite S'. cbn [rbind].
        pose proof (rec_err _ _ H Hn) as Hr.
        rewrite flat_app, flat_hsadd in Hr. exact Hr.
Qed.
End ScanErr.

Lemma twice_err ex : hom ex -> hom_err ex -> hom_err (twice d ex).
Proof.
  intros H E a n T Hn. unfold twice in *.
  apply rbind_err in T as [T|(x & X & T)].
  - rewrite (E _ _ T Hn). reflexivity.
  - rewrite (H _ _ X). cbn [rbind].
    destruct (d_rescan d); [|discriminate]. apply (E _ _ T Hn).
Qed.

Lemma expand_err k : hom_err (expand d env k).
Proof.
  induction k as [|k IH]; intros a n H Hn; [discriminate|].
  cbn [expand] in *.
  pose proof (twice_hom _ (expand_hom k)) as PH.
  pose proof (twice_err _ (expand_hom k) IH) as PE.
  apply scan_err; assumption.
Qed.

(** An arity error of the preprocessor on a symbolic token list is its
    error on every token list the symbolic one stands for. *)
Theorem preprocess_flat_err k ts n :
  nullary n = false ->
  preprocess d env k ts = Err (Arity n) ->
  preprocess d env k (flat_toks ts) = Err (Arity n).
Proof.
  unfold preprocess. intros Hn H.
  apply rbind_err in H as [H|(x & _ & H)]; [|discriminate].
  rewrite <- flat_plain.
  rewrite (twice_err _ (expand_hom k) (expand_err k) _ _ H Hn).
  reflexivity.
Qed.
End Abstraction.

(** ** The shape of a caller's token list

    A balanced token list is a sequence of items separated by the commas
    outside parentheses; an item is empty, starts with a token that is no
    parenthesis, or starts with a parenthesised group. *)

Section Shapes.
Variable env : table.


Lemma close_exists b : forall c,
  depth_ok (S c) b = Some 0 ->
  exists g r, b = g ++ TRParen :: r /\
              depth_ok c g = Some 0 /\ depth_ok 0 r = Some 0.
Proof.
  induction b as [|t b IH]; intros c H; [discriminate|].
  cbn [depth_ok] in H.
  assert (G : forall c1, depth_ok (S c1) b = Some 0 ->
              (forall g, depth_ok c1 g = Some 0 ->
                         depth_ok c (t :: g) = Some 0) ->
              exists g r, t :: b = g ++ TRParen :: r /\
                          depth_ok c g = Some 0 /\ depth_ok 0 r = Some 0).
  { intros c1 H1 C. destruct (IH _ H1) as (g & r & E & Dg & Dr).
    exists (t :: g), r. rewrite E. auto. }
  destruct t; cbn [depth_after] in H;
    try (apply (G c H); cbn [depth_ok depth_after]; auto; fail).
  - apply (G (S c) H); cbn [depth_ok depth_after]; auto.
  - cbn [Nat.pred] in H. destruct c as [|c].
    + exists [], b. auto.
    + apply (G c H); cbn [depth_ok depth_after Nat.pred]; auto.
Qed.

Lemma good_rest b :
  inert env b = true -> depth_ok 0 b = Some 0 -> good env SRest b = true.
Proof.
  intros I D. unfold good, balanced. rewrite I, D. reflexivity.
Qed.

Lemma good_tail b :
  inert env b = true -> depth_ok 0 b = Some 0 -> comma_free 0 b = true ->
  good env STail b = true.
Proof.
  intros I D C. unfold good, balanced. rewrite I, D, C. reflexivity.
Qed.

Lemma good_tail_inv b :
  good env STail b = true ->
  inert env b = true /\ depth_ok 0 b = Some 0 /\ comma_free 0 b = true.
Proof.
  unfold good. intros H. apply andb_true_iff in H as [H C].
  apply andb_true_iff in H as [I B]. apply balanced_depth in B. auto.
Qed.


(** The start of an item. *)
Lemma item_cases x :
  good env STail x = true ->
  x = [] \/ good env SRun x = true \/
  exists g r, x = TLParen :: g ++ TRParen :: r /\
              good env SGroup g = true /\ good env STail r = true.
Proof.
  intros H. destruct (good_tail_inv _ H) as (I & D & C).
  destruct x as [|t b]; [left; reflexivity|]. right.
  destruct (starts_open (t :: b)) eqn:O.
  - right. destruct t; try discriminate.
    cbn [depth_ok depth_after] in D.
    destruct (close_exists _ _ D) as (g & r & E & Dg & Dr).
    exists g, r. subst b. split; [reflexivity|].
    unfold inert in I. cbn [forallb] in I.
    apply andb_true_iff in I as [_ I]. rewrite forallb_app in I.
    apply andb_true_iff in I as [Ig Ir]. cbn [forallb] in Ir.
    apply andb_true_iff in Ir as [_ Ir]. split.
    + apply good_rest; assumption.
    + apply good_tail; try assumption.
      assert (Dp : depth_ok 0 (TLParen :: g ++ [TRParen]) = Some 0).
      { cbn [depth_ok depth_after].
        pose proof (depth_ok_shift _ _ _ 1 Dg) as S1. cbn [plus] in S1.
        rewrite (depth_ok_app _ _ _ _ S1). reflexivity. }
      change (TLParen :: g ++ TRParen :: r)
        with ((TLParen :: g) ++ TRParen :: r) in C.
      replace ((TLParen :: g) ++ TRParen :: r)
        with ((TLParen :: g ++ [TRParen]) ++ r) in C
        by (cbn [app]; rewrite <- app_assoc; reflexivity).
      rewrite (comma_free_app _ _ _ _ Dp) in C.
      apply andb_true_iff in C as [_ C]. exact C.
  - left. unfold good. fold (inert env (t :: b)). unfold balanced.
    rewrite I, D, C, O. reflexivity.
Qed.
End Shapes.

Section ShapeOf.
Variable env : table.

Lemma assign_good runs tails rests groups :
  Forall (fun b => good env SRun b = true) runs ->
  Forall (fun b => good env STail b = true) tails ->
  Forall (fun b => good env SRest b = true) rests ->
  Forall (fun b => good env SGroup b = true) groups ->
  forall k i, good env k (assign runs tails rests groups k i) = true.
Proof.
  intros R T X G k i.
  assert (N : forall (P : list tok -> Prop) l dflt,
            Forall P l -> P dflt -> P (nth i l dflt)).
  { intros P l dflt F D. destruct (Nat.lt_ge_cases i (length l)) as [Lt|Ge].
    - apply Forall_nth; assumption.
    - rewrite nth_overflow by exact Ge. exact D. }
  destruct k; cbn [assign]; apply N; try assumption; reflexivity.
Qed.

Lemma first_item_shape x :
  good env STail x = true ->
  exists sh r g t,
    In sh first_shapes /\ good env SRun r = true /\
    good env SGroup g = true /\ good env STail t = true /\
    forall rho, rho SRun 0 = r -> rho SGroup 0 = g -> rho STail 0 = t ->
                flat_toks rho sh = x.
Proof.
  intros H. destruct (item_cases env x H) as [E|[Hr|(g & r & E & Hg & Ht)]].
  - exists [], [TNum "0"], [], []. subst x.
    repeat split; try reflexivity. left; reflexivity.
  - exists [sym_run 0], x, [], [].
    repeat split; try reflexivity; try assumption.
    + right; left; reflexivity.
    + intros rho E _ _. cbn. rewrite E. apply app_nil_r.
  - exists [sym_group 0; sym_tail 0], [TNum "0"], g, r.
    repeat split; try reflexivity; try assumption.
    + right; right; left; reflexivity.
    + intros rho _ Eg Et. cbn. rewrite Eg, Et, app_nil_r, <- app_assoc.
      subst x. reflexivity.
Qed.

End ShapeOf.

Section ListShape.
Variable env : table.

Lemma flat_toks_app rho a b :
  flat_toks rho (a ++ b) = flat_toks rho a ++ flat_toks rho b.
Proof. apply flat_map_app. Qed.


End ListShape.

(** ** Classification of token lists *)


Lemma flat_toks_call rho m args :
  flat_toks rho (call m args) = call m (flat_toks rho args).
Proof.
  unfold call. change (TId m :: TLParen :: args ++ [TRParen])
    with ([TId m; TLParen] ++ args ++ [TRParen]).
  rewrite !flat_toks_app. reflexivity.
Qed.



(** The header's self-test passes on the model, under each of the four
    implementations: [main] returns 0. *)
Lemma main_returns_0 : forall i, main i = 0.
Proof. intros i. destruct i; vm_compute; reflexivity. Qed.






(** ** The Portable (C99) classifier *)

(** The probes of the empty list are (0,0,0,1). *)
Lemma probes_of_empty :
  probes [] = [Ok (bit false); Ok (bit false); Ok (bit false); Ok (bit true)].
Proof. vm_compute. reflexivity. Qed.

(** C2, as stated, fails: the combination (0,0,1,1) is reduced to 0, for
    the only key the header defines is [NTRNLVA_IS_EMPTY_CASE_0001]. *)
Lemma reduce_0011_is_0 : reduce false false true true = Ok (bit false).
Proof. vm_compute. reflexivity. Qed.

(** C2, amended.  The reduction of the four probe results maps exactly the
    combination (0,0,0,1) to 1 and each of the other fifteen to 0. *)
Theorem reduce_table (p1 p2 p3 p4 : bool) :
  reduce p1 p2 p3 p4 = Ok (bit (negb p1 && negb p2 && negb p3 && p4)).
Proof. destruct p1, p2, p3, p4; vm_compute; reflexivity. Qed.

(** C1: a balanced, macro-free list on which the Portable classifier is
    wrong.  The list [, ()()()] has seven tokens; its first item is empty
    and its second item is taken for the sentinel that [VA_ISEMPTY] appends.
    The native classifier answers 0 on it. *)
Theorem VA_ISEMPTY_C99_sentinel_collision :
  macro_free NTRNLVA_IMPL_C99 (lex ", ()()()") = true /\
  lex ", ()()()" <> [] /\
  c99 (call "VA_ISEMPTY" (lex ", ()()()")) = Ok (bit true) /\
  c99 (call "VA_ISEMPTY" (lex ", (int)(short)(x)")) = Ok (bit true) /\
  cpp NTRNLVA_IMPL_NATIVE (call "VA_ISEMPTY" (lex ", ()()()")) = Ok (bit false).
Proof.
  repeat split; try (vm_compute; reflexivity).
  vm_compute. discriminate.
Qed.

(** C5: a list every implementation expands without an error and on which
    they disagree: native and Portable answer 0, GNU and MSVC answer 1. *)
Theorem VA_ISEMPTY_strategies_disagree :
  macro_free NTRNLVA_IMPL_C99 (lex "a, (int)(short)(x)") = true /\
  map (fun i => cpp i (call "VA_ISEMPTY" (lex "a, (int)(short)(x)"))) impls
  = [Ok (bit false); Ok (bit true); Ok (bit true); Ok (bit false)].
Proof. split; vm_compute; reflexivity. Qed.


(** C10: [NTRNLVA_HAS_COMMA] answers 1 on two items and 0 on three or more,
    as on the nineteen items [MACMANYPLUS()] expands to. *)
Theorem NTRNLVA_HAS_COMMA_three_items :
  c99 (call "NTRNLVA_HAS_COMMA" (lex "a")) = Ok (bit false) /\
  c99 (call "NTRNLVA_HAS_COMMA" (lex "a, b")) = Ok (bit true) /\
  c99 (call "NTRNLVA_HAS_COMMA" (lex "a, b, c")) = Ok (bit false) /\
  c99 (call "NTRNLVA_HAS_COMMA" (lex "MACMANYPLUS()")) = Ok (bit false).
Proof. repeat split; vm_compute; reflexivity. Qed.




(** ** Conditional emission *)










Lemma flat_toks_guard rho L :
  flat_toks rho (guard L) = guard (flat_toks rho L).
Proof.
  unfold guard. change (TLParen :: L ++ [TRParen])
    with ([TLParen] ++ L ++ [TRParen]).
  rewrite !flat_toks_app. reflexivity.
Qed.





(** ** Exact classification *)

















(** ** Instances of the shapes *)





(** ** Plumbing macros *)




(** ** Parenthesis detection *)




(** ** The core of the Portable classifier *)




(** ** Selection of items *)







(** ** Probing *)




Lemma flat_comma_rest rho j :
  flat_toks rho [TComma; sym_rest j] = TComma :: rho SRest j.
Proof. cbn. rewrite app_nil_r. reflexivity. Qed.


(** ** Comma counting *)





(** ** Boolean connectives *)





(** ** The emission switch *)




(** ** Lists whose second item looks like the sentinel *)











(** ** The comma-eliding classifiers *)




(** ** Agreement of the four implementations *)






(** ** Conditional emission, both ways *)








(** ** Witnesses of the exact classifications *)



(** ** Arity errors *)

Lemma cpp_flat_err i rho ts n :
  (forall k j, good (env_of i) k (rho k j) = true) ->
  nullary (env_of i) n = false ->
  cpp i ts = Err (Arity n) -> cpp i (flat_toks rho ts) = Err (Arity n).
Proof. intros G N. apply preprocess_flat_err; assumption. Qed.

Lemma fails_arity_spec i ts n :
  fails_arity i ts n = true -> cpp i ts = Err (Arity n).
Proof.
  unfold fails_arity. destruct (cpp i ts) as [r|[]]; try discriminate.
  intros H. apply String.eqb_eq in H. subst. reflexivity.
Qed.




(** ** A macro of two parameters as first item *)

Lemma first_and_rests_exist env a r X :
  good env STail a = true -> good env SRest r = true ->
  good env SRest X = true ->
  exists sh rho,
    In sh first_shapes /\ (forall k i, good env k (rho k i) = true) /\
    flat_toks rho sh = a /\ rho SRest 0 = r /\ rho SRest 5 = X.
Proof.
  intros A R HX.
  destruct (first_item_shape _ _ A)
    as (sh & r0 & g0 & t0 & I & Gr & Gg & Gt & F).
  exists sh, (assign [r0] [t0] [r; []; []; []; []; X] [g0]).
  split; [exact I|]. split.
  - apply assign_good; repeat constructor; assumption.
  - split; [apply F; reflexivity|]. split; reflexivity.
Qed.

Lemma mac2_table :
  forallb (fun sh =>
    forallb (fun L =>
      fails_arity NTRNLVA_IMPL_C99 (call "VA_ISEMPTY" L) "MAC2"
      && fails_arity NTRNLVA_IMPL_C99 (call "VA_NOTEMPTY" L) "MAC2"
      && fails_arity NTRNLVA_IMPL_C99
           (call "VA_OPT" (guard L ++ [TComma; sym_rest 5])) "MAC2"
      && fails_arity NTRNLVA_IMPL_C99
           (call "VA_NOPT" (guard L ++ [TComma; sym_rest 5])) "MAC2")
      (MAC2_lists sh)) first_shapes = true.
Proof. vm_compute. reflexivity. Qed.


Lemma mac2_not_nullary : nullary (env_of NTRNLVA_IMPL_C99) "MAC2" = false.
Proof. reflexivity. Qed.

(** Under the Portable implementation, [VA_ISEMPTY], [VA_NOTEMPTY],
    [VA_OPT] and [VA_NOPT] do not expand when the first item of the list
    ends with the name of [MAC2], a macro of two parameters: whatever
    precedes the name in the item, whatever items follow and whatever the
    payload, the expansion is the arity error of [MAC2]. *)
Theorem VA_OPT_C99_MAC2_will_not_compile (a r X L : list tok) :
  good (env_of NTRNLVA_IMPL_C99) STail a = true ->
  good (env_of NTRNLVA_IMPL_C99) SRest r = true ->
  macro_free NTRNLVA_IMPL_C99 X = true ->
  L = a ++ [TId "MAC2"] \/ L = a ++ TId "MAC2" :: TComma :: r ->
  cpp NTRNLVA_IMPL_C99 (call "VA_ISEMPTY" L) = Err (Arity "MAC2") /\
  cpp NTRNLVA_IMPL_C99 (call "VA_NOTEMPTY" L) = Err (Arity "MAC2") /\
  cpp NTRNLVA_IMPL_C99 (call "VA_OPT" (guard L ++ TComma :: X))
  = Err (Arity "MAC2") /\
  cpp NTRNLVA_IMPL_C99 (call "VA_NOPT" (guard L ++ TComma :: X))
  = Err (Arity "MAC2").
Proof.
  intros A R HX HL.
  destruct (first_and_rests_exist _ _ _ _ A R HX)
    as (sh & rho & I & G & Fa & Er & EX).
  assert (S : exists shL, In shL (MAC2_lists sh) /\ flat_toks rho shL = L).
  { destruct HL as [->| ->].
    - exists (sh ++ [TId "MAC2"]). split; [left; reflexivity|].
      rewrite flat_toks_app, Fa. reflexivity.
    - exists (sh ++ [TId "MAC2"; TComma; sym_rest 0]).
      split; [right; left; reflexivity|].
      rewrite flat_toks_app, Fa.
      change (flat_toks rho [TId "MAC2"; TComma; sym_rest 0])
        with (TId "MAC2" :: flat_toks rho [TComma; sym_rest 0]).
      rewrite flat_comma_rest, Er. reflexivity. }
  destruct S as (shL & IL & FL).
  pose proof mac2_table as T. rewrite forallb_forall in T.
  specialize (T sh I). rewrite forallb_forall in T. specialize (T shL IL).
  apply andb_true_iff in T as [T T4]. apply andb_true_iff in T as [T T3].
  apply andb_true_iff in T as [T1 T2].
  apply fails_arity_spec in T1, T2, T3, T4.
  apply (cpp_flat_err _ _ _ _ G mac2_not_nullary) in T1.
  apply (cpp_flat_err _ _ _ _ G mac2_not_nullary) in T2.
  apply (cpp_flat_err _ _ _ _ G mac2_not_nullary) in T3.
  apply (cpp_flat_err _ _ _ _ G mac2_not_nullary) in T4.
  rewrite flat_toks_call, FL in T1.
  rewrite flat_toks_call, FL in T2.
  rewrite flat_toks_call, flat_toks_app, flat_toks_guard, flat_comma_rest,
    FL, EX in T3.
  rewrite flat_toks_call, flat_toks_app, flat_toks_guard, flat_comma_rest,
    FL, EX in T4.
  split; [exact T1|]. split; [exact T2|]. split; [exact T3 | exact T4].
Qed.

Lemma VA_OPT_C99_MAC2_will_not_compile_witness :
  good (env_of NTRNLVA_IMPL_C99) STail (lex "(int) x") = true /\
  good (env_of NTRNLVA_IMPL_C99) SRest (lex "y, z") = true /\
  macro_free NTRNLVA_IMPL_C99 (lex ", w") = true /\
  cpp NTRNLVA_IMPL_C99
    (call "VA_OPT"
       (guard (lex "(int) x" ++ TId "MAC2" :: TComma :: lex "y, z")
        ++ TComma :: lex ", w"))
  = Err (Arity "MAC2").
Proof.
  split; [vm_compute; reflexivity|]. split; [vm_compute; reflexivity|].
  split; [vm_compute; reflexivity|].
  apply (VA_OPT_C99_MAC2_will_not_compile (lex "(int) x") (lex "y, z")
           (lex ", w") (lex "(int) x" ++ TId "MAC2" :: TComma :: lex "y, z")).
  - vm_compute. reflexivity.
  - vm_compute. reflexivity.
  - vm_compute. reflexivity.
  - right. reflexivity.
Defined.



(** ** Selection of the implementation *)

(** The detection macro expands to 1 exactly on a preprocessor that
    implements [__VA_OPT__]; without an argument it expands to 0 on
    every preprocessor, which is why the header passes one. *)
Theorem VA_OPT_SUPPORTED_detects (d : dialect) :
  preprocess d detection fuel [TId "VA_OPT_SUPPORTED"]
  = Ok (bit (d_va_opt d)) /\
  preprocess d detection fuel (call "NTRNLVA_OPT_SUPPORTED_I" [])
  = Ok (bit false).
Proof. destruct d as [[] [] [] []]; vm_compute; split; reflexivity. Qed.




(** ** The variants for the traditional MSVC preprocessor *)









(** ** The example of the usage notes *)














